(** * Rag_news_bot_backend: a shallow embedding of the RAG core

    The development follows the source files of the backend:

    - [Chunker]       src/backend/src/ingest/ingest.js  ([chunkText], [chunkArray])
    - [Retry]         src/backend/src/llm/gemini.js     ([retryWithBackoff])
    - [Prompt]        src/backend/src/llm/gemini.js     ([answerWithContext])
    - [SessionStore]  src/backend/src/cache/redis.js    ([appendMessage], [getHistory], [resetSession])
    - [Rag]           src/backend/src/chat/rag.js       ([handleChat])
    - [Ingest]        src/backend/src/ingest/ingest.js  ([main])

    Definitions come first, the theorems about them afterwards. *)

From Stdlib Require Import ZArith Lia List QArith Qcanon.
From stdpp Require Import base numbers list strings gmap pretty.

Local Open Scope Z_scope.

(* ===================================================================== *)
(** * JavaScript values shared by the modules                            *)
(* ===================================================================== *)

Module Js.

(** A JavaScript string is a sequence of UTF-16 code units.  The chunker
    looks at individual code units (sentence terminators, white space), so
    its texts are lists of code units. *)
Definition jsstring := list N.

(** Code units of the three sentence terminators searched by [chunkText]. *)
Definition ch_period : N := 46.
Definition ch_exclamation : N := 33.
Definition ch_question : N := 63.

(** [String.prototype.trim] strips WhiteSpace and LineTerminator code
    points: TAB, LF, VT, FF, CR, SP, NBSP, the Unicode space separators,
    LS, PS and the BOM. *)
Definition is_white (c : N) : bool :=
  ((9 <=? c) && (c <=? 13) || (c =? 32) || (c =? 160) || (c =? 5760)
   || (8192 <=? c) && (c <=? 8202) || (c =? 8232) || (c =? 8233)
   || (c =? 8239) || (c =? 8287) || (c =? 12288) || (c =? 65279))%N.

Fixpoint trimStart (s : jsstring) : jsstring :=
  match s with
  | [] => []
  | c :: s' => if is_white c then trimStart s' else s
  end.

Definition trimEnd (s : jsstring) : jsstring := rev (trimStart (rev s)).

Definition trim (s : jsstring) : jsstring := trimEnd (trimStart s).

(** [s.slice(i, e)] for [0 <= i] and [0 <= e]; empty when [e <= i], cut at
    the end of the string when [e] is past it. *)
Definition slice (s : jsstring) (i e : Z) : jsstring :=
  take (Z.to_nat (e - i)) (drop (Z.to_nat i) s).

(** [s.lastIndexOf(ch, from)]: the greatest index [k <= from] with
    [s[k] = ch], [-1] when there is none.  A negative [from] is clamped to
    [0].  [idx] is the index of the head of [s], [acc] the best match seen. *)
Fixpoint lastIndexOf_scan (ch : N) (s : jsstring) (idx from acc : Z) : Z :=
  match s with
  | [] => acc
  | c :: s' =>
      if idx <=? from
      then lastIndexOf_scan ch s' (idx + 1) from (if (c =? ch)%N then idx else acc)
      else acc
  end.

Definition lastIndexOf (s : jsstring) (ch : N) (from : Z) : Z :=
  lastIndexOf_scan ch s 0 (Z.max from 0) (-1).

(** [Boolean(s)] on a string: the empty string is falsy. *)
Definition Boolean_str (s : jsstring) : bool :=
  match s with [] => false | _ => true end.

(** ** Exceptions *)

(** What the code reads of a thrown value: [error.status],
    [error.response.status] and [error.message]; [None] is [undefined]. *)
Record jserror := {
  err_status : option Z;
  err_response_status : option Z;
  err_message : option string
}.

Definition Error (msg : string) : jserror :=
  {| err_status := None; err_response_status := None; err_message := Some msg |}.

(** Reading a property of [undefined], or calling a missing method. *)
Definition TypeError : jserror := Error "TypeError".

(** The outcome of an awaited call: a value, or a thrown error. *)
Inductive result (A : Type) : Type :=
| Ok (a : A)
| Throw (e : jserror).
Arguments Ok {A} a.
Arguments Throw {A} e.

(** ** Strings of the chat side (titles, urls, roles, messages) *)

Definition nl : string := String (Ascii.ascii_of_nat 10) EmptyString.

Definition upper_ascii (c : Ascii.ascii) : Ascii.ascii :=
  let n := Ascii.nat_of_ascii c in
  if ((97 <=? n) && (n <=? 122))%nat then Ascii.ascii_of_nat (n - 32) else c.

Definition lower_ascii (c : Ascii.ascii) : Ascii.ascii :=
  let n := Ascii.nat_of_ascii c in
  if ((65 <=? n) && (n <=? 90))%nat then Ascii.ascii_of_nat (n + 32) else c.

Fixpoint string_map (f : Ascii.ascii -> Ascii.ascii) (s : string) : string :=
  match s with
  | EmptyString => EmptyString
  | String c s' => String (f c) (string_map f s')
  end.

(** [s.toUpperCase()], on the ASCII letters. *)
Definition toUpperCase (s : string) : string := string_map upper_ascii s.
Definition toLowerCase (s : string) : string := string_map lower_ascii s.

(** [s.includes(needle)]. *)
Fixpoint includes (s needle : string) : bool :=
  String.prefix needle s
  || match s with
     | EmptyString => false
     | String _ s' => includes s' needle
     end.

(** [arr.join(sep)]. *)
Definition join (sep : string) (l : list string) : string := String.concat sep l.

(** ** Objects *)

Inductive jsval :=
| JStr (s : string)
| JNum (n : Z).

(** A plain object: its own properties.  A missing key reads [undefined]. *)
Abbreviation jsobj := (gmap string jsval).

(** A value inside a template literal; [undefined] prints as such. *)
Definition template_str (v : option jsval) : string :=
  match v with
  | None => "undefined"
  | Some (JStr s) => s
  | Some (JNum n) => pretty n
  end.

(** [arr.slice(-n)]: the last [n] elements. *)
Definition slice_last {A} (n : nat) (l : list A) : list A :=
  drop (length l - n) l.

(** ** Effectful code

    Code that reads and writes a state [S] and may throw.  What was
    written before a throw stays written. *)
Definition Eff (S A : Type) : Type := S -> result A * S.

Definition ret {S A} (a : A) : Eff S A := fun s => (Ok a, s).
Definition bind {S A B} (m : Eff S A) (k : A -> Eff S B) : Eff S B :=
  fun s => match m s with
           | (Ok a, s') => k a s'
           | (Throw e, s') => (Throw e, s')
           end.
Definition throw {S A} (e : jserror) : Eff S A := fun s => (Throw e, s).
Definition get {S} : Eff S S := fun s => (Ok s, s).
Definition modify {S} (f : S -> S) : Eff S unit := fun s => (Ok tt, f s).
(** An awaited call that does not touch the state. *)
Definition lift {S A} (r : result A) : Eff S A := fun s => (r, s).
(** [try { m } catch (error) { h error }] *)
Definition try_catch {S A} (m : Eff S A) (h : jserror -> Eff S A) : Eff S A :=
  fun s => match m s with
           | (Ok a, s') => (Ok a, s')
           | (Throw e, s') => h e s'
           end.

Notation "x <- m ;; k" := (bind m (fun x => k))
  (at level 100, m at next level, right associativity).
Notation "m ;;; k" := (bind m (fun _ => k))
  (at level 100, right associativity).

End Js.

(* ===================================================================== *)
(** * ingest.js: the chunker                                             *)
(* ===================================================================== *)

Module Chunker.
Import Js.

Definition maxChunks : nat := 30.
Definition default_maxChars : Z := 1500.
Definition default_overlap : Z := 150.

(** [Math.max(lastPeriod, lastExclamation, lastQuestion)]. *)
Definition lastSentenceEnd (text : jsstring) (e : Z) : Z :=
  Z.max (Z.max (lastIndexOf text ch_period e) (lastIndexOf text ch_exclamation e))
        (lastIndexOf text ch_question e).

(** The test [lastSentenceEnd > i + maxChars * 0.7].  The source computes
    the right-hand side in binary64; the model compares exactly, as
    [7 * maxChars < 10 * (lastSentenceEnd - i)].  At the default
    [maxChars = 1500] the product [1500 * 0.7] rounds to [1050] exactly, so
    both agree there (see [near_sentence_end_default]). *)
Definition near_sentence_end (lse i maxChars : Z) : bool :=
  7 * maxChars <? 10 * (lse - i).

(** Where the window starting at [i] ends. *)
Definition window_end (text : jsstring) (maxChars i : Z) : Z :=
  let len := Z.of_nat (length text) in
  let e := Z.min len (i + maxChars) in
  if e <? len then
    let lse := lastSentenceEnd text e in
    if near_sentence_end lse i maxChars then lse + 1 else e
  else e.

(** The [while] loop of [chunkText].  [fuel] is [maxChunks - chunkCount]:
    the loop counter is incremented on every iteration, so the loop is
    structurally bounded by it. *)
Fixpoint chunkLoop (text : jsstring) (maxChars overlap : Z)
         (fuel : nat) (i : Z) (chunks : list jsstring) : list jsstring :=
  match fuel with
  | O => chunks
  | S fuel' =>
      if i <? Z.of_nat (length text) then
        let e := window_end text maxChars i in
        let chunk := trim (slice text i e) in
        let chunks' :=
          if (100 <? length chunk)%nat then chunks ++ [chunk] else chunks in
        let i' := if e - overlap <? 0 then 0 else e - overlap in
        chunkLoop text maxChars overlap fuel' i' chunks'
      else chunks
  end.

(** What one iteration keeps of the slice it cut: the trimmed slice, when
    it is longer than 100 code units. *)
Definition keep (s : jsstring) : list jsstring :=
  if (100 <? length (trim s))%nat then [trim s] else [].

Definition chunkText (text : jsstring) (maxChars overlap : Z) : list jsstring :=
  List.filter Boolean_str (chunkLoop text maxChars overlap maxChunks 0 []).

(** [chunkText(text)] as [main] calls it. *)
Definition chunkText_default (text : jsstring) : list jsstring :=
  chunkText text default_maxChars default_overlap.

(** [chunkArray(arr, size)] for a positive [size]; [fuel] bounds the number
    of groups by the length of the array. *)
Fixpoint chunkArray_go {A} (fuel : nat) (arr : list A) (size : nat) : list (list A) :=
  match fuel, arr with
  | _, [] => []
  | O, _ => []
  | S fuel', _ => take size arr :: chunkArray_go fuel' (drop size arr) size
  end.

Definition chunkArray {A} (arr : list A) (size : nat) : list (list A) :=
  chunkArray_go (length arr) arr size.

End Chunker.

(* ===================================================================== *)
(** * gemini.js: the retry wrapper                                       *)
(* ===================================================================== *)

Module Retry.
Import Js.

(** What the [catch] block decides about an error.  The older version of
    the component reads [error.message.includes], which itself throws when
    the error has no message. *)
Inductive verdict :=
| Transient
| Permanent
| ClassifierThrows (e : jserror).

(** [status ?? response.status] *)
Definition error_status (e : jserror) : option Z :=
  match err_status e with
  | Some st => Some st
  | None => err_response_status e
  end.

(** [String(error?.message || "")] *)
Definition error_msg (e : jserror) : string := default "" (err_message e).

(** [/overload|quota|rate|exceed/i.test(msg)] *)
Definition transient_pattern (msg : string) : bool :=
  let m := toLowerCase msg in
  includes m "overload" || includes m "quota" || includes m "rate" || includes m "exceed".

Definition transient_status (st : option Z) : bool :=
  match st with
  | Some n => (n =? 503) || (n =? 502) || (n =? 500) || (n =? 504) || (n =? 429)
  | None => false
  end.

(** The classifier of src/backend/src/llm/gemini.js. *)
Definition classify (e : jserror) : verdict :=
  if transient_status (error_status e) || transient_pattern (error_msg e)
  then Transient else Permanent.

(** The classifier of the older version (src/unnamed/part_002):
    [error.status === 503 || error.message.includes('overloaded')]. *)
Definition classify_legacy (e : jserror) : verdict :=
  match err_status e with
  | Some 503 => Transient
  | _ =>
      match err_message e with
      | Some m => if includes m "overloaded" then Transient else Permanent
      | None => ClassifierThrows TypeError
      end
  end.

(** How a call of the wrapper ends. *)
Inductive outcome (A : Type) : Type :=
| Returned (a : A)
| ReturnedUndefined
| Thrown (e : jserror).
Arguments Returned {A} a.
Arguments ReturnedUndefined {A}.
Arguments Thrown {A} e.

(** The observable behaviour of one call: how it ended, how often the
    wrapped operation was invoked, and the delays slept, in order. *)
Record run (A : Type) : Type := {
  ended : outcome A;
  invocations : nat;
  delays : list Z
}.
Arguments ended {A} r.
Arguments invocations {A} r.
Arguments delays {A} r.

Section Wrapper.
Context {A : Type}.
(** The [catch] block's classification. *)
Variable classifier : jserror -> verdict.
(** [fn]: what its [k]-th invocation (from 0) does. *)
Variable fn : nat -> result A.
Variable maxRetries : nat.
Variable baseDelay : Z.

(** The [for] loop; [fuel] is [maxRetries - i].  The operation has been
    invoked [i] times and [slept] lists the delays so far. *)
Fixpoint retry_loop (fuel i : nat) (slept : list Z) : run A :=
  match fuel with
  | O => {| ended := ReturnedUndefined; invocations := i; delays := slept |}
  | S fuel' =>
      match fn i with
      | Ok v => {| ended := Returned v; invocations := S i; delays := slept |}
      | Throw e =>
          if Z.of_nat i =? Z.of_nat maxRetries - 1
          then {| ended := Thrown e; invocations := S i; delays := slept |}
          else
            match classifier e with
            | Transient =>
                retry_loop fuel' (S i) (slept ++ [baseDelay * 2 ^ Z.of_nat i])
            | Permanent =>
                {| ended := Thrown e; invocations := S i; delays := slept |}
            | ClassifierThrows e' =>
                {| ended := Thrown e'; invocations := S i; delays := slept |}
            end
      end
  end.

Definition retryWithBackoff : run A := retry_loop maxRetries 0%nat [].
End Wrapper.

Definition default_maxRetries : nat := 3.
Definition default_baseDelay : Z := 1000.

End Retry.

(* ===================================================================== *)
(** * gemini.js: the prompt and the generation call                      *)
(* ===================================================================== *)

Module Prompt.
Import Js Retry.

Record ContextDoc := {
  cd_title : string;
  cd_text : string;
  cd_url : string
}.

(** What [model.generateContent] resolves to: [resp.response.text()] may
    itself throw. *)
Record GenResponse := { response_text : result string }.

Definition sys : string :=
  "You are a helpful news assistant. Only use the CONTEXT. Cite sources like [1], [2]. If unsure, say you are unsure.".

Definition ctxBlock (i : nat) (d : ContextDoc) : string :=
  "---" +:+ nl +:+ "[" +:+ pretty (i + 1)%nat +:+ "] TITLE: " +:+ cd_title d +:+ nl
  +:+ "URL: " +:+ cd_url d +:+ nl +:+ "TEXT: " +:+ cd_text d.

Definition ctxBlocks (docs : list ContextDoc) : string :=
  join nl (imap ctxBlock docs).

(** [`${m.role.toUpperCase()}: ${m.content}`]; the method call throws
    unless [m.role] is a string. *)
Definition histLine (m : jsobj) : result string :=
  match m !! "role" with
  | Some (JStr r) => Ok (toUpperCase r +:+ ": " +:+ template_str (m !! "content"))
  | _ => Throw TypeError
  end.

Fixpoint histLines (ms : list jsobj) : result (list string) :=
  match ms with
  | [] => Ok []
  | m :: ms' =>
      match histLine m with
      | Throw e => Throw e
      | Ok l =>
          match histLines ms' with
          | Throw e => Throw e
          | Ok ls => Ok (l :: ls)
          end
      end
  end.

(** [history.slice(-6).map(...).join("\n")]: the CHAT HISTORY section. *)
Definition histText (history : list jsobj) : result string :=
  match histLines (slice_last 6 history) with
  | Ok ls => Ok (join nl ls)
  | Throw e => Throw e
  end.

Definition buildPrompt (message : string) (ctx hist : string) : string :=
  sys +:+ nl +:+ nl +:+ "CONTEXT:" +:+ nl +:+ ctx +:+ nl +:+ nl
  +:+ "CHAT HISTORY:" +:+ nl +:+ hist +:+ nl +:+ nl
  +:+ "USER: " +:+ message +:+ nl +:+ "ASSISTANT:".

Section Generation.
Variable classifier : jserror -> verdict.
(** [model.generateContent]: the outcome of its [k]-th invocation on a
    prompt. *)
Variable generateContent : string -> nat -> result GenResponse.

Definition answerWithContext (message : string) (contextDocs : list ContextDoc)
           (history : list jsobj) : result string :=
  match histText history with
  | Throw e => Throw e
  | Ok hist =>
      let prompt := buildPrompt message (ctxBlocks contextDocs) hist in
      match ended (retryWithBackoff classifier (generateContent prompt)
                                    default_maxRetries default_baseDelay) with
      | Returned resp => response_text resp
      | ReturnedUndefined => Throw TypeError
      | Thrown e => Throw e
      end
  end.
End Generation.

End Prompt.

(* ===================================================================== *)
(** * redis.js: the session store                                        *)
(* ===================================================================== *)

Module SessionStore.
Import Js.

(** [Number(process.env.SESSION_TTL_SECONDS ?? 60 * 60 * 24)], at its
    default. *)
Definition TTL_SECONDS : Z := 60 * 60 * 24.

(** [KEY(sid)] *)
Definition KEY (sid : string) : string := "chat:" +:+ sid.

(** An element of a Redis list is a string.  The model keeps what
    [JSON.parse] makes of it: the object that [JSON.stringify] wrote, or
    nothing for a string that does not parse (or parses to a falsy value). *)
Inductive redis_entry :=
| Serialized (o : jsobj)
| Malformed (raw : string).

Definition JSON_stringify (o : jsobj) : redis_entry := Serialized o.

(** [try { return JSON.parse(s) } catch { return null }] *)
Definition JSON_parse_or_null (s : redis_entry) : option jsobj :=
  match s with
  | Serialized o => Some o
  | Malformed _ => None
  end.

(** The module state of redis.js together with the Redis server it talks
    to.  [faults] schedules the round trips to the server that are still to
    come: [true] makes the next one throw (server unreachable); an
    exhausted schedule means no more faults. *)
Record store := {
  has_redis : bool;                          (* [!!process.env.REDIS_URL] *)
  client_open : bool;                        (* [client.isOpen] *)
  faults : list bool;
  redis_db : gmap string (list redis_entry); (* the server's lists *)
  redis_ttl : gmap string Z;                 (* the server's expiries, seconds *)
  mem : gmap string (list jsobj);            (* [mem] *)
  timers : gmap string Z                     (* [timers]: pending delay, ms *)
}.

Definition set_client_open (b : bool) (s : store) : store :=
  {| has_redis := has_redis s; client_open := b; faults := faults s;
     redis_db := redis_db s; redis_ttl := redis_ttl s;
     mem := mem s; timers := timers s |}.
Definition set_faults (f : list bool) (s : store) : store :=
  {| has_redis := has_redis s; client_open := client_open s; faults := f;
     redis_db := redis_db s; redis_ttl := redis_ttl s;
     mem := mem s; timers := timers s |}.
Definition set_redis_db (d : gmap string (list redis_entry)) (s : store) : store :=
  {| has_redis := has_redis s; client_open := client_open s; faults := faults s;
     redis_db := d; redis_ttl := redis_ttl s;
     mem := mem s; timers := timers s |}.
Definition set_redis_ttl (t : gmap string Z) (s : store) : store :=
  {| has_redis := has_redis s; client_open := client_open s; faults := faults s;
     redis_db := redis_db s; redis_ttl := t;
     mem := mem s; timers := timers s |}.
Definition set_mem (m : gmap string (list jsobj)) (s : store) : store :=
  {| has_redis := has_redis s; client_open := client_open s; faults := faults s;
     redis_db := redis_db s; redis_ttl := redis_ttl s;
     mem := m; timers := timers s |}.
Definition set_timers (t : gmap string Z) (s : store) : store :=
  {| has_redis := has_redis s; client_open := client_open s; faults := faults s;
     redis_db := redis_db s; redis_ttl := redis_ttl s;
     mem := mem s; timers := t |}.

(** Asynchronous store code: it reads and writes the store and may throw. *)
Abbreviation M := (Eff store).

Definition redis_unreachable : jserror := Error "Redis unreachable".

(** One round trip to the server. *)
Definition round_trip : M unit := fun s =>
  match faults s with
  | true :: fs => (Throw redis_unreachable, set_faults fs s)
  | false :: fs => (Ok tt, set_faults fs s)
  | [] => (Ok tt, s)
  end.

(** [getClient()]: [false] stands for [null] (no Redis configured). *)
Definition getClient : M bool :=
  s <- get ;;
  if has_redis s then
    if client_open s then ret true
    else round_trip ;;; modify (set_client_open true) ;;; ret true
  else ret false.

Definition rPush (k : string) (v : redis_entry) : M unit :=
  round_trip ;;;
  modify (fun s => set_redis_db (<[k := default [] (redis_db s !! k) ++ [v]]> (redis_db s)) s).

Definition expire (k : string) (seconds : Z) : M unit :=
  round_trip ;;;
  modify (fun s => match redis_db s !! k with
                   | Some _ => set_redis_ttl (<[k := seconds]> (redis_ttl s)) s
                   | None => s
                   end).

(** [lRange(k, 0, -1)] *)
Definition lRange_all (k : string) : M (list redis_entry) :=
  round_trip ;;;
  s <- get ;; ret (default [] (redis_db s !! k)).

Definition del (k : string) : M unit :=
  round_trip ;;;
  modify (fun s => set_redis_ttl (delete k (redis_ttl s))
                     (set_redis_db (delete k (redis_db s)) s)).

(** [touchMem(k)]: the pending timer, if any, is cleared and a new one set. *)
Definition touchMem (k : string) : M unit :=
  modify (fun s => set_timers (<[k := TTL_SECONDS * 1000]> (delete k (timers s))) s).

(** [appendMessage(sessionId, msg)]; [now] is what [Date.now()] returns. *)
Definition appendMessage (sessionId : string) (msg : jsobj) (now : Z) : M unit :=
  let k := KEY sessionId in
  let value := JSON_stringify (<["ts" := JNum now]> msg) in
  r <- getClient ;;
  if r then
    rPush k value ;;;
    expire k TTL_SECONDS
  else
    s <- get ;;
    let arr := default [] (mem s !! k) in
    match JSON_parse_or_null value with
    | Some o => modify (fun s => set_mem (<[k := arr ++ [o]]> (mem s)) s) ;;; touchMem k
    | None => throw TypeError
    end.

(** [getHistory(sessionId)] *)
Definition getHistory (sessionId : string) : M (list jsobj) :=
  let k := KEY sessionId in
  r <- getClient ;;
  if r then
    arr <- lRange_all k ;;
    ret (omap JSON_parse_or_null arr)
  else
    s <- get ;; ret (default [] (mem s !! k)).

(** [resetSession(sessionId)] *)
Definition resetSession (sessionId : string) : M unit :=
  let k := KEY sessionId in
  r <- getClient ;;
  if r then del k
  else modify (fun s => set_timers (delete k (timers s)) (set_mem (delete k (mem s)) s)).

(** The callback of the timer set by [touchMem]: the session expires. *)
Definition timer_fires (sessionId : string) (s : store) : store :=
  let k := KEY sessionId in
  set_timers (delete k (timers s)) (set_mem (delete k (mem s)) s).

(** The server drops a key whose TTL has elapsed. *)
Definition redis_key_expires (sessionId : string) (s : store) : store :=
  let k := KEY sessionId in
  set_redis_ttl (delete k (redis_ttl s)) (set_redis_db (delete k (redis_db s)) s).

(** A process started without [REDIS_URL], and one started with it. *)
Definition fresh_memory_store : store :=
  {| has_redis := false; client_open := false; faults := [];
     redis_db := ∅; redis_ttl := ∅; mem := ∅; timers := ∅ |}.
Definition fresh_redis_store (schedule : list bool) : store :=
  {| has_redis := true; client_open := false; faults := schedule;
     redis_db := ∅; redis_ttl := ∅; mem := ∅; timers := ∅ |}.

(** The session's log as the store holds it now. *)
Definition session_log (sessionId : string) (s : store) : list jsobj :=
  if has_redis s
  then omap JSON_parse_or_null (default [] (redis_db s !! KEY sessionId))
  else default [] (mem s !! KEY sessionId).

(** A sequence of appends, one after the other. *)
Fixpoint appendAll (sessionId : string) (turns : list (jsobj * Z)) : M unit :=
  match turns with
  | [] => ret tt
  | (msg, now) :: rest => appendMessage sessionId msg now ;;; appendAll sessionId rest
  end.

(** The turn objects that [handleChat] passes to [appendMessage]:
    [{ message, role }]. *)
Definition turn (message role : string) : jsobj :=
  <["role" := JStr role]> (<["message" := JStr message]> ∅).

(** What [appendMessage] stores for it: [{ ...msg, ts: Date.now() }]. *)
Definition stored (msg : jsobj) (now : Z) : jsobj := <["ts" := JNum now]> msg.

End SessionStore.

(* ===================================================================== *)
(** * rag.js: the chat orchestrator                                      *)
(* ===================================================================== *)

Module Rag.
Import Js Retry Prompt SessionStore.

(** A search result: [{ score, ...payload }].  Scores are binary64 numbers
    compared with [>=] and [>]; the model takes their exact rational
    values, on which the comparisons agree. *)
Record Candidate := {
  score : Qc;
  title : string;
  url : string;
  text : string
}.

Record Citation := {
  cit_title : string;
  cit_url : string;
  cit_score : Qc
}.

(** The literal [0.6]: the binary64 number nearest to it. *)
Definition minScore : Qc := Q2Qc (5404319552844595 # 9007199254740992).
Definition fallbackCount : nat := 3.

(** The two statements of [handleChat] that select [finalResults]. *)
Definition retrievalFilter (searchResults : list Candidate) : list Candidate :=
  let filteredResults := filter (fun r => (minScore <= score r)%Qc) searchResults in
  if (0 <? length filteredResults)%nat
  then filteredResults
  else take fallbackCount searchResults.

Definition toContextDoc (r : Candidate) : ContextDoc :=
  {| cd_title := title r; cd_text := text r; cd_url := url r |}.

(** ** The citations map

    A JavaScript [Map] iterates in insertion order, and [set] on a key that
    is present keeps the key's position: an association list. *)
Definition CitationsMap := list (string * Citation).

Fixpoint map_get (m : CitationsMap) (k : string) : option Citation :=
  match m with
  | [] => None
  | (k', v) :: m' => if decide (k' = k) then Some v else map_get m' k
  end.

Definition map_has (m : CitationsMap) (k : string) : bool :=
  match map_get m k with Some _ => true | None => false end.

Fixpoint map_set (m : CitationsMap) (k : string) (v : Citation) : CitationsMap :=
  match m with
  | [] => [(k, v)]
  | (k', v') :: m' =>
      if decide (k' = k) then (k', v) :: m' else (k', v') :: map_set m' k v
  end.

Definition map_values (m : CitationsMap) : list Citation := map snd m.

Definition citationOf (r : Candidate) : Citation :=
  {| cit_title := title r; cit_url := url r; cit_score := score r |}.

(** The body of the [forEach] callback. *)
Definition dedupe_step (m : CitationsMap) (r : Candidate) : CitationsMap :=
  let key := url r in
  if negb (map_has m key)
     || match map_get m key with
        | Some c => bool_decide (cit_score c < score r)%Qc
        | None => false
        end
  then map_set m key (citationOf r)
  else m.

Definition citationsMapOf (finalResults : list Candidate) : CitationsMap :=
  fold_left dedupe_step finalResults [].

(** [Array.from(citationsMap.values())] *)
Definition dedupe (finalResults : list Candidate) : list Citation :=
  map_values (citationsMapOf finalResults).

(** ** What the deduplication is compared with *)

(** The distinct elements of a list, in order of first occurrence. *)
Fixpoint first_occurrences (l : list string) : list string :=
  match l with
  | [] => []
  | x :: l' => x :: filter (fun y => y <> x) (first_occurrences l')
  end.

(** [r] is the candidate of [rs] that a citation for url [u] is made of:
    the first one, among those with that url, whose score is maximal. *)
Definition best_for (rs : list Candidate) (u : string) (r : Candidate) : Prop :=
  url r = u
  /\ exists before after,
      rs = before ++ r :: after
      /\ (forall r', r' ∈ before -> url r' = u -> (score r' < score r)%Qc)
      /\ (forall r', r' ∈ after -> url r' = u -> (score r' <= score r)%Qc).

Section Orchestrator.
(** The external collaborators: the embedding service, the vector store
    and the generative model. *)
Variable vector : Type.
Variable getEmbedding : string -> result vector.
Variable search : string -> vector -> nat -> result (list Candidate).
Variable classifier : jserror -> verdict.
Variable generateContent : string -> nat -> result GenResponse.
Variable COLLECTION : string.

(** The [try] block of [handleChat]; [now_user] and [now_assistant] are
    what [Date.now()] returns in the two appends. *)
Definition handleChat_try (sessionId message : string) (now_user now_assistant : Z)
  : M (string * list Citation) :=
  history <- getHistory sessionId ;;
  queryVector <- lift (getEmbedding message) ;;
  searchResults <- lift (search COLLECTION queryVector 8%nat) ;;
  let finalResults := retrievalFilter searchResults in
  let contextDocs := map toContextDoc finalResults in
  reply <- lift (answerWithContext classifier generateContent
                                   message contextDocs history) ;;
  let citations := dedupe finalResults in
  appendMessage sessionId (turn message "user") now_user ;;;
  appendMessage sessionId (turn reply "assistant") now_assistant ;;;
  ret (reply, citations).

Definition handleChat (sessionId message : string) (now_user now_assistant : Z)
  : M (string * list Citation) :=
  try_catch (handleChat_try sessionId message now_user now_assistant)
            (fun _ => throw (Error "Failed to process chat message")).

(** The part of the [try] block before the two appends. *)
Definition generate (sessionId message : string)
  : M (string * list Citation) :=
  history <- getHistory sessionId ;;
  queryVector <- lift (getEmbedding message) ;;
  searchResults <- lift (search COLLECTION queryVector 8%nat) ;;
  let finalResults := retrievalFilter searchResults in
  reply <- lift (answerWithContext classifier generateContent
                                   message (map toContextDoc finalResults) history) ;;
  ret (reply, dedupe finalResults).
End Orchestrator.

End Rag.

(* ===================================================================== *)
(** * ingest.js: the batch loop of [main]                                *)
(* ===================================================================== *)

Module Ingest.
Import Js Chunker.

Record Document := {
  doc_url : string;
  doc_title : string;
  doc_text : jsstring
}.

Record Payload := {
  p_url : string;
  p_title : string;
  p_text : jsstring
}.

(** The lines of the loop that tell how a URL went, and the closing line
    (the progress lines in between are left out). *)
Inductive event :=
| Fetching (i total : nat) (url : string)
| Scraped (title : string) (text_length : nat)
| SkipTooShort (url : string)
| EmbeddingGroup (n : nat)
| EmbeddingError (msg : option string)
| Ingested (title : string) (n : nat)
| ErrorForURL (url : string) (msg : option string)
| Done (processed total : nat).

Section Main.
Variable vector : Type.

(** [vectors[idx]] is [undefined] when the service returned too few. *)
Record Point := {
  pt_id : string;
  pt_vector : option vector;
  pt_payload : Payload
}.

(** The loop's variables and what it has written so far.  [calls] counts
    the calls to the outside world: each external call is given its
    number, so that it may answer differently every time. *)
Record state := {
  processed : nat;
  db : list Point;          (* what [upsertPoints] has stored *)
  out : list Payload;       (* the lines of news.jsonl *)
  console : list event;
  calls : nat
}.

Definition log (ev : event) : Eff state unit :=
  modify (fun s => {| processed := processed s; db := db s; out := out s;
                      console := console s ++ [ev]; calls := calls s |}).
Definition tick : Eff state nat :=
  fun s => (Ok (calls s),
            {| processed := processed s; db := db s; out := out s;
               console := console s; calls := S (calls s) |}).
Definition store_points (pts : list Point) : Eff state unit :=
  modify (fun s => {| processed := processed s; db := db s ++ pts; out := out s;
                      console := console s; calls := calls s |}).
Definition write_out (ps : list Payload) : Eff state unit :=
  modify (fun s => {| processed := processed s; db := db s; out := out s ++ ps;
                      console := console s; calls := calls s |}).
Definition incr_processed : Eff state unit :=
  modify (fun s => {| processed := S (processed s); db := db s; out := out s;
                      console := console s; calls := calls s |}).

(** The external collaborators. *)
Variable scrape : nat -> string -> result Document.
Variable embedMany : nat -> list jsstring -> result (list vector).
Variable upsertPoints : nat -> list Point -> result unit.
Variable uuid : nat -> string.

(** The inner [for] loop over [chunkArray(chunks, 4)]. *)
Fixpoint embedGroups (groups : list (list jsstring)) (vectors : list vector)
  : Eff state (list vector) :=
  match groups with
  | [] => ret vectors
  | group :: rest =>
      log (EmbeddingGroup (length group)) ;;;
      n <- tick ;;
      v <- try_catch (lift (embedMany n group))
                     (fun embedError =>
                        log (EmbeddingError (err_message embedError)) ;;;
                        throw embedError) ;;
      embedGroups rest (vectors ++ v)
  end.

(** [chunks.map((chunk, idx) => ({ id: uuid(), vector: vectors[idx], payload }))] *)
Fixpoint makePoints (doc : Document) (chunks : list jsstring) (idx : nat)
         (vectors : list vector) : Eff state (list Point) :=
  match chunks with
  | [] => ret []
  | chunk :: rest =>
      n <- tick ;;
      let pt := {| pt_id := uuid n; pt_vector := vectors !! idx;
                   pt_payload := {| p_url := doc_url doc; p_title := doc_title doc;
                                    p_text := chunk |} |} in
      pts <- makePoints doc rest (S idx) vectors ;;
      ret (pt :: pts)
  end.

(** The [try] block of one iteration. *)
Definition ingest_try (url : string) : Eff state unit :=
  n <- tick ;;
  doc <- lift (scrape n url) ;;
  log (Scraped (doc_title doc) (length (doc_text doc))) ;;;
  if (length (doc_text doc) <? 500)%nat then
    log (SkipTooShort url)                       (* [continue] *)
  else
    let chunks := chunkText_default (doc_text doc) in
    vectors <- embedGroups (chunkArray chunks 4) [] ;;
    points <- makePoints doc chunks 0 vectors ;;
    n' <- tick ;;
    lift (upsertPoints n' points) ;;;
    store_points points ;;;
    write_out (map pt_payload points) ;;;
    incr_processed ;;;
    log (Ingested (doc_title doc) (length points)).

(** One iteration of the loop over [urls], [try] and [catch]. *)
Definition ingest_url (total i : nat) (url : string) (s : state) : state :=
  match (log (Fetching (i + 1) total url) ;;; ingest_try url) s with
  | (Ok _, s') => s'
  | (Throw e, s') => snd (log (ErrorForURL url (err_message e)) s')
  end.

Fixpoint ingest_loop (total i : nat) (urls : list string) (s : state) : state :=
  match urls with
  | [] => s
  | url :: rest => ingest_loop total (S i) rest (ingest_url total i url s)
  end.

Definition initial : state :=
  {| processed := 0; db := []; out := []; console := []; calls := 0 |}.

(** The loop of [main] and its closing line. *)
Definition main_loop (urls : list string) (s : state) : state :=
  let s' := ingest_loop (length urls) 0 urls s in
  snd (log (Done (processed s') (length urls)) s').

(** ** Reading the console *)

Definition fetched_url (ev : event) : option string :=
  match ev with Fetching _ _ url => Some url | _ => None end.
Definition is_ingested (ev : event) : bool :=
  match ev with Ingested _ _ => true | _ => false end.
Definition is_skip (ev : event) : bool :=
  match ev with SkipTooShort _ => true | _ => false end.
Definition is_error (ev : event) : bool :=
  match ev with ErrorForURL _ _ => true | _ => false end.
Definition report (ev : event) : option (nat * nat) :=
  match ev with Done p t => Some (p, t) | _ => None end.

(** How many events of a kind a stretch of the console has. *)
Definition countb (f : event -> bool) (evs : list event) : nat :=
  length (List.filter f evs).

(** Events that neither start a URL nor close one. *)
Definition inert (ev : event) : Prop :=
  fetched_url ev = None /\ is_ingested ev = false
  /\ is_skip ev = false /\ is_error ev = false.

(** [s'] comes after [s] with inert events printed in between and the
    same count of processed URLs. *)
Definition silent_step (s s' : state) : Prop :=
  processed s' = processed s
  /\ exists evs, console s' = console s ++ evs /\ Forall inert evs.

Definition silent {A} (m : Eff state A) : Prop :=
  forall s, silent_step s (snd (m s)).
End Main.

Arguments processed {vector} s.
Arguments db {vector} s.
Arguments out {vector} s.
Arguments console {vector} s.
Arguments calls {vector} s.

End Ingest.

(* ===================================================================== *)
(** * The server: what happens to the session store                      *)
(* ===================================================================== *)

Module Server.
Import Js Retry Prompt SessionStore Rag.

(** The stores a running server can be in.  It starts with an empty store,
    on either backend; the chat route runs [handleChat], the history route
    [getHistory], the delete route [resetSession]; timers fire, Redis keys
    expire, and the connection to Redis fails according to any schedule. *)
Inductive reachable : store -> Prop :=
| start_memory : reachable fresh_memory_store
| start_redis schedule : reachable (fresh_redis_store schedule)
| after_chat s (vector : Type) getEmbedding search classifier generateContent
             COLLECTION sid message now_u now_a :
    reachable s ->
    reachable (snd (handleChat vector getEmbedding search classifier generateContent
                               COLLECTION sid message now_u now_a s))
| after_history s sid : reachable s -> reachable (snd (getHistory sid s))
| after_reset s sid : reachable s -> reachable (snd (resetSession sid s))
| after_timer s sid : reachable s -> reachable (timer_fires sid s)
| after_expiry s sid : reachable s -> reachable (redis_key_expires sid s)
| after_network s schedule : reachable s -> reachable (set_faults schedule s).

(** A stored turn as the prompt builder sees it: a [message], a [role],
    and no [content]. *)
Definition is_turn (o : jsobj) : Prop :=
  (exists m, o !! "message" = Some (JStr m))
  /\ (exists r, o !! "role" = Some (JStr r))
  /\ o !! "content" = None.

Definition well_formed (s : store) : Prop :=
  (forall k l, mem s !! k = Some l -> Forall is_turn l)
  /\ (forall k l, redis_db s !! k = Some l ->
                  Forall (fun e => forall o, JSON_parse_or_null e = Some o -> is_turn o) l).

(** [m.role], for a turn. *)
Definition role_of (o : jsobj) : string :=
  match o !! "role" with
  | Some (JStr r) => r
  | _ => ""
  end.

(** The line of the CHAT HISTORY section that a turn gives. *)
Definition turn_line (o : jsobj) : string :=
  toUpperCase (role_of o) +:+ ": undefined".

(** The turn whose message text is replaced by [f] of it. *)
Definition rewrite_message (f : string -> string) (o : jsobj) : jsobj :=
  match o !! "message" with
  | Some (JStr m) => <["message" := JStr (f m)]> o
  | _ => o
  end.

(** No Redis fault is pending: either Redis is not configured, or the
    fault schedule is exhausted. *)
Definition quiet (s : store) : Prop := has_redis s = false \/ faults s = [].

End Server.

(* ===================================================================== *)
(** * Concrete inputs used below                                         *)
(* ===================================================================== *)

Module Scenario.
Import Js Retry.

(** The document of scenario A: 1200 letters [a], no sentence punctuation. *)
Definition doc1200 : jsstring := repeat 97%N 1200.

(** A text of 1600 code units whose only period sits at index 1500. *)
Definition period_at_1500 : jsstring :=
  repeat 97%N 1500 ++ [ch_period] ++ repeat 97%N 99.

Definition overloaded_503 : jserror :=
  {| err_status := Some 503; err_response_status := None;
     err_message := Some "The model is overloaded" |}.
Definition quota_exceeded : jserror :=
  {| err_status := None; err_response_status := None;
     err_message := Some "Quota exceeded for this project" |}.
Definition unauthorized : jserror :=
  {| err_status := Some 401; err_response_status := None;
     err_message := Some "API key not valid" |}.

(** Fails with 503, then on quota, then answers. *)
Definition flaky_twice (k : nat) : result string :=
  match k with
  | O => Throw overloaded_503
  | S O => Throw quota_exceeded
  | _ => Ok "answer"
  end.

Definition flaky_legacy (k : nat) : result string :=
  match k with
  | O | S O => Throw overloaded_503
  | _ => Ok "answer"
  end.

Definition always_unauthorized (k : nat) : result string := Throw unauthorized.

(** Scenario B and scenario C of the retrieval filter. *)
Definition cand (sc : Q) (u : string) : Rag.Candidate :=
  {| Rag.score := Q2Qc sc; Rag.title := "t-" +:+ u; Rag.url := u; Rag.text := "" |}.
Definition scenarioB : list Rag.Candidate :=
  [cand (9 # 10) "a"; cand (55 # 100) "b"; cand (3 # 10) "c"].
Definition scenarioC : list Rag.Candidate :=
  [cand (5 # 10) "a"; cand (4 # 10) "b"; cand (3 # 10) "c";
   cand (2 # 10) "d"; cand (1 # 10) "e"].

(** Two chunks of the same article around one of another, with a tie. *)
Definition threeSources : list Rag.Candidate :=
  [cand (7 # 10) "a"; cand (8 # 10) "b"; cand (9 # 10) "a"; cand (8 # 10) "b"].

(** Collaborators that always answer: one embedding, the candidates of
    scenario B, and a model that replies ["reply"]. *)
Definition embed_ok (_ : string) : result unit := Ok tt.
Definition search_ok (_ : string) (_ : unit) (_ : nat) : result (list Rag.Candidate) :=
  Ok scenarioB.
Definition generate_ok (_ : string) (_ : nat) : result Prompt.GenResponse :=
  Ok {| Prompt.response_text := Ok "reply" |}.

Definition chat (sid message : string) (now_u now_a : Z)
  : SessionStore.M (string * list Rag.Citation) :=
  Rag.handleChat unit embed_ok search_ok classify generate_ok "news"
                 sid message now_u now_a.

(** A Redis server that answers four round trips (connect, the history
    read, the push and the expiry of the first append) and is unreachable
    at the fifth (the push of the second append). *)
Definition redis_lost_at_fifth : SessionStore.store :=
  SessionStore.fresh_redis_store [false; false; false; false; true].

(** Scenario D: two turns appended to a fresh session. *)
Definition scenarioD : list (jsobj * Z) :=
  [(SessionStore.turn "hi" "user", 1000); (SessionStore.turn "hello" "assistant", 1001)].

(** A batch of three URLs: the first cannot be fetched, the second yields
    a short text, the third an article of 600 letters. *)
Definition batch : list string := ["https://a"; "https://b"; "https://c"].
Definition scrape_demo (_ : nat) (url : string) : result Ingest.Document :=
  if String.eqb url "https://a" then Throw (Error "timeout of 30000ms exceeded")
  else if String.eqb url "https://b"
       then Ok {| Ingest.doc_url := url; Ingest.doc_title := "B";
                  Ingest.doc_text := repeat 97%N 120 |}
       else Ok {| Ingest.doc_url := url; Ingest.doc_title := "C";
                  Ingest.doc_text := repeat 97%N 600 |}.
Definition embed_demo (_ : nat) (group : list jsstring) : result (list unit) :=
  Ok (map (fun _ => tt) group).
Definition upsert_demo (_ : nat) (_ : list (Ingest.Point unit)) : result unit := Ok tt.
Definition uuid_demo (n : nat) : string := "id-" +:+ pretty n.

Definition run_batch : Ingest.state unit :=
  Ingest.main_loop unit scrape_demo embed_demo upsert_demo uuid_demo batch
                   (Ingest.initial unit).

End Scenario.

(* ===================================================================== *)
(** * ingest.js: the url list and the scraper's AMP fallback             *)
(* ===================================================================== *)

Module IngestIO.
Import Js Ingest.

(** ** The url list of [main] *)

Definition cons_line (c : N) (lines : list jsstring) : list jsstring :=
  match lines with
  | l :: rest => (c :: l) :: rest
  | [] => [[c]]
  end.

(** [content.split(/\r?\n/)]: the text is cut at every line feed, which
    takes a carriage return right before it along. *)
Fixpoint splitLines (s : jsstring) : list jsstring :=
  match s with
  | [] => [[]]
  | c :: s' =>
      if (c =? 10)%N then [] :: splitLines s'
      else
        match s' with
        | c' :: s'' =>
            if ((c =? 13) && (c' =? 10))%N then [] :: splitLines s''
            else cons_line c (splitLines s')
        | [] => [[c]]
        end
  end.

(** One [add] of a [Set]: a value already present keeps its place. *)
Definition set_add (seen : list jsstring) (x : jsstring) : list jsstring :=
  if decide (x ∈ seen) then seen else seen ++ [x].

(** [[...new Set(arr)]]: the distinct values in order of insertion. *)
Definition spreadSet (arr : list jsstring) : list jsstring :=
  fold_left set_add arr [].

(** [urlsRaw] and [urls] of [main], from the content of data/urls.txt. *)
Definition urlsRawOf (content : jsstring) : list jsstring :=
  List.filter Boolean_str (map trim (splitLines content)).

Definition urlsOf (content : jsstring) : list jsstring :=
  spreadSet (urlsRawOf content).

(** ** [scrape] *)

(** [url.replace(/\/?$/, repl)]: the replacement is put at the end of the
    url, in place of a slash that ends it. *)
Fixpoint replaceTrailingSlash (url repl : string) : string :=
  match url with
  | EmptyString => repl
  | String c rest =>
      match rest with
      | EmptyString => if Ascii.eqb c (Ascii.ascii_of_nat 47) then repl else String c repl
      | _ => String c (replaceTrailingSlash rest repl)
      end
  end.

(** [url.includes("/amp") ? url : url.replace(/\/?$/, "/amp")] *)
Definition ampUrlOf (url : string) : string :=
  if includes url "/amp" then url else replaceTrailingSlash url "/amp".

Section Scrape.
(** [scrapeOnce]: what fetching and extracting a url gives. *)
Variable scrapeOnce : string -> result Document.

(** A call of [scrapeOnce]; the state lists the urls requested so far. *)
Definition fetch (url : string) : Eff (list string) Document :=
  modify (fun requested => requested ++ [url]) ;;; lift (scrapeOnce url).

Definition scrape (url : string) : Eff (list string) Document :=
  doc <- fetch url ;;
  if (500 <=? length (doc_text doc))%nat then ret doc
  else
    try_catch
      (let ampUrl := ampUrlOf url in
       if bool_decide (ampUrl <> url) then
         ampDoc <- fetch ampUrl ;;
         if (length (doc_text doc) <? length (doc_text ampDoc))%nat
         then ret ampDoc else ret doc
       else ret doc)
      (fun _ => ret doc).
End Scrape.

End IngestIO.

(* ===================================================================== *)
(** * The chat route of the server                                       *)
(* ===================================================================== *)

Module Routes.
Import Js Retry Prompt SessionStore Rag.

(** [req.body || {}], read at [sessionId] and [message]; [None] is a missing
    field. *)
Record ChatBody := {
  body_sessionId : option string;
  body_message : option string
}.

(** What the route answers: the status and the fields of the JSON body. *)
Inductive Response :=
| Status400 (error : string)
| Status500 (error : string)
| Status200 (reply : string) (citations : list Citation) (sessionId : string).

Definition status (r : Response) : Z :=
  match r with
  | Status400 _ => 400
  | Status500 _ => 500
  | Status200 _ _ _ => 200
  end.

(** A string field is truthy when it is present and not empty. *)
Definition truthy (v : option string) : bool :=
  match v with
  | Some (String _ _) => true
  | _ => false
  end.

Section Chat.
Variable vector : Type.
Variable getEmbedding : string -> result vector.
Variable search : string -> vector -> nat -> result (list Candidate).
Variable classifier : jserror -> verdict.
Variable generateContent : string -> nat -> result GenResponse.
Variable COLLECTION : string.
(** What [uuid()] returns in this request. *)
Variable uuid : string.

(** The handler of [POST /api/chat]. *)
Definition chatRoute (body : ChatBody) (now_u now_a : Z) (s : store)
  : Response * store :=
  if negb (truthy (body_message body)) then (Status400 "message required", s)
  else
    let message := default "" (body_message body) in
    let sessionId :=
      if truthy (body_sessionId body) then default "" (body_sessionId body)
      else uuid in
    match handleChat vector getEmbedding search classifier generateContent
                     COLLECTION sessionId message now_u now_a s with
    | (Ok (reply, citations), s') => (Status200 reply citations sessionId, s')
    | (Throw e, s') =>
        (Status500 (if truthy (err_message e)
                    then default "" (err_message e) else "server_error"), s')
    end.
End Chat.

End Routes.

(* ===================================================================== *)
(** * Facts about the chunker                                            *)
(* ===================================================================== *)

Section ChunkerFacts.
Import Js Chunker.

Lemma trimStart_length s : (length (trimStart s) <= length s)%nat.
Proof.
  induction s as [|c s IH]; simpl; [lia|].
  destruct (is_white c); simpl; lia.
Qed.

Lemma trim_length s : (length (trim s) <= length s)%nat.
Proof.
  unfold trim, trimEnd. rewrite length_rev.
  etransitivity; [apply trimStart_length|].
  rewrite length_rev. apply trimStart_length.
Qed.

Lemma trimStart_suffix s : trimStart s `suffix_of` s.
Proof.
  induction s as [|c s IH]; simpl; [reflexivity|].
  destruct (is_white c); [now apply suffix_cons_r|reflexivity].
Qed.

Lemma trimStart_drop n : forall s, trimStart (drop n s) `suffix_of` trimStart s.
Proof.
  induction n as [|n IH]; intros [|c s]; simpl; try reflexivity.
  destruct (is_white c); [apply IH|].
  etransitivity; [apply trimStart_suffix|].
  apply suffix_cons_r, suffix_drop.
Qed.

Lemma trimStart_prefix_length a : forall b,
  a `prefix_of` b -> (length (trimStart a) <= length (trimStart b))%nat.
Proof.
  induction a as [|c a IH]; intros b Hab; simpl; [lia|].
  destruct Hab as [k ->]. simpl. destruct (is_white c).
  - apply IH. now exists k.
  - simpl. rewrite length_app. lia.
Qed.

Lemma trimEnd_suffix_length a b :
  a `suffix_of` b -> (length (trimEnd a) <= length (trimEnd b))%nat.
Proof.
  intros [k ->]. unfold trimEnd. rewrite !length_rev.
  apply trimStart_prefix_length. rewrite rev_app_distr. now exists (rev k).
Qed.

(** Trimming a tail of a text leaves no more than trimming the text. *)
Lemma trim_drop_length n s : (length (trim (drop n s)) <= length (trim s))%nat.
Proof. unfold trim. apply trimEnd_suffix_length, trimStart_drop. Qed.

Lemma slice_length s i e : (length (slice s i e) <= Z.to_nat (e - i))%nat.
Proof. unfold slice. rewrite length_take. lia. Qed.

Lemma lastIndexOf_scan_le ch s : forall idx from acc,
  acc <= from -> lastIndexOf_scan ch s idx from acc <= from.
Proof.
  induction s as [|c s IH]; intros idx from acc Hacc; simpl; [lia|].
  destruct (Z.leb_spec idx from); [|lia].
  apply IH. destruct (c =? ch)%N; lia.
Qed.

Lemma lastIndexOf_le s ch from : 0 <= from -> lastIndexOf s ch from <= from.
Proof.
  intros H. unfold lastIndexOf.
  replace (Z.max from 0) with from by lia.
  apply lastIndexOf_scan_le. lia.
Qed.

Lemma near_sentence_end_default lse i :
  near_sentence_end lse i default_maxChars = (i + 1050 <? lse).
Proof.
  unfold near_sentence_end, default_maxChars.
  destruct (Z.ltb_spec (7 * 1500) (10 * (lse - i))), (Z.ltb_spec (i + 1050) lse);
    try reflexivity; lia.
Qed.

(** A window never extends more than one code unit past [i + maxChars]:
    [lastIndexOf] searches from index [e] inclusive, and the cut is placed
    after the terminator found. *)
Lemma window_end_le text maxChars i :
  0 <= i -> 0 <= maxChars ->
  window_end text maxChars i <= i + maxChars + 1.
Proof.
  intros Hi Hm. unfold window_end.
  set (len := Z.of_nat (length text)).
  set (e := Z.min len (i + maxChars)).
  assert (0 <= e) by (subst e len; lia).
  assert (e <= i + maxChars) by (subst e; lia).
  destruct (e <? len); [|lia].
  destruct (near_sentence_end _ _ _); [|lia].
  unfold lastSentenceEnd.
  pose proof (lastIndexOf_le text ch_period e).
  pose proof (lastIndexOf_le text ch_exclamation e).
  pose proof (lastIndexOf_le text ch_question e).
  lia.
Qed.

Lemma chunkLoop_bounds text maxChars overlap (Hm : 0 <= maxChars) :
  forall fuel i chunks c,
    0 <= i ->
    In c (chunkLoop text maxChars overlap fuel i chunks) ->
    In c chunks \/ ((100 < length c)%nat /\ Z.of_nat (length c) <= maxChars + 1).
Proof.
  induction fuel as [|fuel IH]; intros i chunks c Hi Hin; simpl in Hin; [now left|].
  destruct (i <? Z.of_nat (length text)); [|now left].
  set (e := window_end text maxChars i) in *.
  set (chunk := trim (slice text i e)) in *.
  apply IH in Hin; [|destruct (Z.ltb_spec (e - overlap) 0); lia].
  destruct Hin as [Hin|Hin]; [|now right].
  destruct (Nat.ltb_spec 100 (length chunk)) as [Hlong|Hshort]; [|now left].
  apply in_app_or in Hin. destruct Hin as [Hin|[<-|[]]]; [now left|].
  right. split; [exact Hlong|].
  pose proof (trim_length (slice text i e)).
  pose proof (slice_length text i e).
  pose proof (window_end_le text maxChars i Hi Hm).
  fold e in H1. fold chunk in H. lia.
Qed.

Lemma chunkLoop_app text maxChars overlap :
  forall fuel i chunks,
    chunkLoop text maxChars overlap fuel i chunks
    = chunks ++ chunkLoop text maxChars overlap fuel i [].
Proof.
  induction fuel as [|fuel IH]; intros i chunks; simpl; [now rewrite app_nil_r|].
  destruct (i <? Z.of_nat (length text)); [|now rewrite app_nil_r].
  destruct (100 <? _)%nat.
  - rewrite IH. rewrite (IH _ [_]). now rewrite <- app_assoc.
  - apply IH.
Qed.

Lemma filter_Boolean_keep s : List.filter Boolean_str (keep s) = keep s.
Proof.
  unfold keep. destruct (Nat.ltb_spec 100 (length (trim s))) as [H|H]; [|reflexivity].
  simpl. destruct (trim s); [simpl in H; lia|reflexivity].
Qed.

Lemma filter_Boolean_concat_repeat s n :
  List.filter Boolean_str (concat (repeat (keep s) n)) = concat (repeat (keep s) n).
Proof.
  induction n as [|n IH]; [reflexivity|].
  simpl. rewrite List.filter_app, IH, filter_Boolean_keep. reflexivity.
Qed.

Section ShortText.
Variable text : jsstring.
Let len := Z.of_nat (length text).
Hypothesis Hpos : 0 < len.
Hypothesis Hshort : len < default_maxChars.

(** The cursor after every iteration on a short text. *)
Let tail_start := if len - default_overlap <? 0 then 0 else len - default_overlap.

Lemma short_window_end i : 0 <= i -> window_end text default_maxChars i = len.
Proof using Hshort.
  intros Hi. unfold window_end. fold len.
  replace (Z.min len (i + default_maxChars)) with len by lia.
  now rewrite Z.ltb_irrefl.
Qed.

Lemma short_tail_start_lt : 0 <= tail_start < len.
Proof using Hpos.
  unfold tail_start, default_overlap.
  destruct (Z.ltb_spec (len - 150) 0); lia.
Qed.

Lemma short_step fuel i :
  0 <= i < len ->
  chunkLoop text default_maxChars default_overlap (S fuel) i []
  = keep (slice text i len)
    ++ chunkLoop text default_maxChars default_overlap fuel tail_start [].
Proof using Hshort.
  intros Hi. cbn [chunkLoop]. fold len.
  destruct (Z.ltb_spec i len); [|lia].
  rewrite short_window_end by lia. fold tail_start.
  rewrite chunkLoop_app. unfold keep.
  destruct (100 <? _)%nat; reflexivity.
Qed.

(** The cursor is reset to [len - overlap], which is below [len]: the
    test [i < text.length] never fails once the loop is entered, and only
    the iteration cap ends it. *)
Lemma short_tail_loop fuel :
  chunkLoop text default_maxChars default_overlap fuel tail_start []
  = concat (repeat (keep (slice text tail_start len)) fuel).
Proof using Hpos Hshort.
  induction fuel as [|fuel IH]; [reflexivity|].
  rewrite short_step by apply short_tail_start_lt.
  now rewrite IH.
Qed.

Lemma slice_all : slice text 0 len = text.
Proof.
  unfold slice, len. rewrite Z.sub_0_r, Nat2Z.id. simpl.
  apply firstn_all.
Qed.

(** For a text shorter than [maxChars] the chunker keeps the trimmed text
    (when longer than 100) and then 29 times what it keeps of the last
    [overlap] code units. *)
Lemma chunkText_short :
  chunkText_default text
  = keep text ++ concat (repeat (keep (slice text tail_start len)) 29).
Proof using Hpos Hshort.
  unfold chunkText_default, chunkText, maxChunks.
  rewrite short_step by lia. rewrite short_tail_loop, slice_all.
  rewrite List.filter_app, filter_Boolean_keep, filter_Boolean_concat_repeat.
  reflexivity.
Qed.
Lemma slice_to_end i : 0 <= i -> slice text i len = drop (Z.to_nat i) text.
Proof.
  intros Hi. unfold slice. apply take_ge. rewrite length_drop. unfold len. lia.
Qed.

(** The half of the edge case that holds: a text shorter than [maxChars]
    whose trimmed length does not exceed 100 gives no chunk. *)
Lemma chunkText_short_below_floor :
  (length (trim text) <= 100)%nat -> chunkText_default text = [].
Proof using Hpos Hshort.
  intros Hfloor. rewrite chunkText_short.
  assert (Hk : forall s, (length (trim s) <= 100)%nat -> keep s = []).
  { intros s Hs. unfold keep. destruct (Nat.ltb_spec 100 (length (trim s))); [lia|reflexivity]. }
  rewrite (Hk text Hfloor), slice_to_end by apply short_tail_start_lt.
  rewrite Hk by (etransitivity; [apply trim_drop_length|exact Hfloor]).
  reflexivity.
Qed.

(** Exactly one chunk comes out only when, besides, what is left of the
    last [overlap] code units after trimming does not exceed 100. *)
Lemma chunkText_short_single :
  (100 < length (trim text))%nat ->
  (length (trim (slice text tail_start len)) <= 100)%nat ->
  chunkText_default text = [trim text].
Proof using Hpos Hshort.
  intros Hlong Htail. rewrite chunkText_short. unfold keep.
  destruct (Nat.ltb_spec 100 (length (trim text))); [|lia].
  destruct (Nat.ltb_spec 100 (length (trim (slice text tail_start len)))); [lia|].
  reflexivity.
Qed.
End ShortText.

End ChunkerFacts.

(* ===================================================================== *)
(** * Claims about the chunker                                           *)
(* ===================================================================== *)

Section ChunkerClaims.
Import Js Chunker Scenario.

(** C1.  The claim promises exactly one chunk (the full trimmed text) for
    every text shorter than [maxChars], and in particular for a document of
    1200 characters without sentence punctuation.  The code returns 30
    chunks there: the full text, then 29 copies of its last 150
    characters, because the cursor is reset to [end - overlap] and never
    reaches the end of the text. *)
Theorem chunkText_1200_returns_30_chunks :
  chunkText_default doc1200 = doc1200 :: repeat (repeat 97%N 150) 29
  /\ length (chunkText_default doc1200) = 30%nat.
Proof. vm_compute. split; reflexivity. Qed.

(** C2 (as amended).  Every chunk returned by [chunkText] with the default
    parameters is longer than 100 code units and at most
    [maxChars + 1 = 1501] code units long. *)
Theorem chunk_length_bounds (text c : jsstring) :
  In c (chunkText_default text) -> (100 < length c <= 1501)%nat.
Proof.
  unfold chunkText_default, chunkText. intros Hin.
  apply List.filter_In in Hin. destruct Hin as [Hin _].
  apply chunkLoop_bounds in Hin; [|unfold default_maxChars; lia|lia].
  destruct Hin as [[]|[Hlo Hhi]]. unfold default_maxChars in Hhi. lia.
Qed.

Lemma chunk_length_bounds_witness :
  In (repeat 97%N 1500 ++ [ch_period]) (chunkText_default period_at_1500)
  /\ (100 < length (repeat 97%N 1500 ++ [ch_period]) <= 1501)%nat.
Proof.
  assert (H : In (repeat 97%N 1500 ++ [ch_period]) (chunkText_default period_at_1500))
    by (vm_compute; left; reflexivity).
  split; [exact H|].
  exact (chunk_length_bounds period_at_1500 _ H).
Defined.

(** C2 as stated fails: the first chunk of [period_at_1500] is 1501 code
    units long, and it is not the final remainder (29 chunks follow it). *)
Lemma chunk_exceeds_maxChars :
  exists c rest,
    chunkText_default period_at_1500 = c :: rest
    /\ length c = 1501%nat /\ length rest = 29%nat
    /\ ~ (Z.of_nat (length c) <= default_maxChars).
Proof.
  exists (repeat 97%N 1500 ++ [ch_period]).
  eexists. split; [vm_compute; reflexivity|].
  split; [vm_compute; reflexivity|].
  split; [vm_compute; reflexivity|].
  vm_compute. intros H. apply H. reflexivity.
Qed.

End ChunkerClaims.

(* ===================================================================== *)
(** * Claims about the retry wrapper                                     *)
(* ===================================================================== *)

Section RetryClaims.
Import Js Retry.
Context {A : Type}.
Variable classifier : jserror -> verdict.
Variable baseDelay : Z.

(** C6.  With [maxRetries = 3]: an operation that fails twice with a
    transient error and then succeeds is invoked exactly three times, the
    wrapper returns its value and sleeps [baseDelay * 2^0] and
    [baseDelay * 2^1] before the two retries; an operation whose first
    failure is permanent is invoked exactly once and its error is
    rethrown without any delay. *)
Theorem retry_three_attempts (fn gn : nat -> result A) (e1 e2 e : jserror) (v : A) :
  fn 0%nat = Throw e1 -> classifier e1 = Transient ->
  fn 1%nat = Throw e2 -> classifier e2 = Transient ->
  fn 2%nat = Ok v ->
  gn 0%nat = Throw e -> classifier e = Permanent ->
  retryWithBackoff classifier fn 3 baseDelay
  = {| ended := Returned v; invocations := 3;
       delays := [baseDelay * 2 ^ 0; baseDelay * 2 ^ 1] |}
  /\ retryWithBackoff classifier gn 3 baseDelay
     = {| ended := Thrown e; invocations := 1; delays := [] |}.
Proof.
  intros Hf0 Hc1 Hf1 Hc2 Hf2 Hg0 Hc.
  unfold retryWithBackoff. cbn [retry_loop].
  rewrite Hf0, Hc1, Hf1, Hc2, Hf2, Hg0, Hc. cbn. split; reflexivity.
Qed.

(** C10.  With [maxRetries = 0] the loop body never runs: the operation is
    not invoked, nothing is slept, and the call yields [undefined]. *)
Theorem retry_zero_returns_undefined (fn : nat -> result A) :
  retryWithBackoff classifier fn 0 baseDelay
  = {| ended := ReturnedUndefined; invocations := 0; delays := [] |}.
Proof. reflexivity. Qed.

End RetryClaims.

Section RetryWitness.
Import Js Retry Scenario.

Lemma retry_three_attempts_witness :
  retryWithBackoff classify flaky_twice 3 1000
  = {| ended := Returned "answer"; invocations := 3; delays := [1000 * 2 ^ 0; 1000 * 2 ^ 1] |}
  /\ retryWithBackoff classify always_unauthorized 3 1000
     = {| ended := Thrown unauthorized; invocations := 1; delays := [] |}.
Proof.
  apply (retry_three_attempts classify 1000 flaky_twice always_unauthorized
           overloaded_503 quota_exceeded unauthorized "answer");
    reflexivity.
Defined.

(** The status codes that [classify] takes for transient. *)
Lemma classify_transient_statuses st msg :
  st ∈ [429; 500; 502; 503; 504] ->
  classify {| err_status := Some st; err_response_status := None; err_message := msg |}
  = Transient.
Proof.
  intros Hst. repeat (apply elem_of_cons in Hst as [->|Hst]; [reflexivity|]).
  inversion Hst.
Qed.

(** The same scenario under the older classifier. *)
Lemma retry_three_attempts_legacy :
  retryWithBackoff classify_legacy flaky_legacy 3 1000
  = {| ended := Returned "answer"; invocations := 3; delays := [1000; 2000] |}.
Proof. reflexivity. Qed.

(** The older classifier throws on an error without a message. *)
Lemma retry_legacy_classifier_throws :
  ended (retryWithBackoff classify_legacy
           (fun _ => Throw {| err_status := Some 401; err_response_status := None;
                              err_message := None |} : result string) 3 1000)
  = Thrown TypeError.
Proof. reflexivity. Qed.

End RetryWitness.

(* ===================================================================== *)
(** * Claims about the retrieval filter                                  *)
(* ===================================================================== *)

Section FilterClaims.
Import Js Rag.

(** The candidates that pass the threshold, in input order. *)
Let passing (cs : list Candidate) : list Candidate :=
  filter (fun r => (minScore <= score r)%Qc) cs.

Lemma retrievalFilter_cases cs :
  (passing cs <> [] /\ retrievalFilter cs = passing cs)
  \/ (passing cs = [] /\ retrievalFilter cs = take fallbackCount cs).
Proof.
  unfold retrievalFilter. fold (passing cs).
  destruct (passing cs) as [|c l]; [right|left]; simpl; split; congruence.
Qed.

(** C4.  The filter returns exactly the candidates whose score is at least
    [minScore], in input order, when there is one; otherwise the first
    [fallbackCount = 3] candidates of the input.  Its output is an
    order-preserving part of the input, and it is non-empty whenever the
    input is. *)
Theorem retrievalFilter_policy (cs : list Candidate) :
  ((exists c, c ∈ cs /\ (minScore <= score c)%Qc) ->
     retrievalFilter cs = filter (fun r => (minScore <= score r)%Qc) cs
     /\ forall c, c ∈ retrievalFilter cs <-> c ∈ cs /\ (minScore <= score c)%Qc)
  /\ ((forall c, c ∈ cs -> ~ (minScore <= score c)%Qc) ->
        retrievalFilter cs = take 3 cs)
  /\ retrievalFilter cs `sublist_of` cs
  /\ (cs <> [] -> retrievalFilter cs <> []).
Proof.
  destruct (retrievalFilter_cases cs) as [[Hne Heq]|[Hnil Heq]]; rewrite Heq;
    unfold passing in *.
  - split; [|split; [|split]].
    + intros _. split; [reflexivity|]. intros c. rewrite list_elem_of_filter. tauto.
    + intros Hnone. exfalso.
      destruct (filter _ cs) as [|c l] eqn:Hf; [congruence|].
      assert (Hc : c ∈ filter (fun r => (minScore <= score r)%Qc) cs)
        by (rewrite Hf; left).
      apply list_elem_of_filter in Hc as [Hc Hin]. exact (Hnone c Hin Hc).
    + apply sublist_filter.
    + intros _. exact Hne.
  - split; [|split; [|split]].
    + intros (c & Hin & Hc). exfalso.
      assert (Hcin : c ∈ filter (fun r => (minScore <= score r)%Qc) cs)
        by (apply list_elem_of_filter; split; [exact Hc|exact Hin]).
      rewrite Hnil in Hcin. inversion Hcin.
    + intros _. reflexivity.
    + apply sublist_take.
    + intros Hcs. destruct cs; [congruence|]. discriminate.
Qed.

Import Scenario.

(** Scenario B: one candidate passes and is the only one returned.
    Scenario C: none of five passes and the first three are returned. *)
Lemma retrievalFilter_policy_witness :
  retrievalFilter scenarioB = [cand (9 # 10) "a"]
  /\ retrievalFilter scenarioC = take 3 scenarioC
  /\ retrievalFilter scenarioC <> [].
Proof.
  pose proof (retrievalFilter_policy scenarioB) as (HB & _).
  pose proof (retrievalFilter_policy scenarioC) as (_ & HC & _ & HneC).
  split; [|split].
  - destruct HB as [-> _]; [|vm_compute; reflexivity].
    exists (cand (9 # 10) "a"). split; [left|]. vm_compute. discriminate.
  - apply HC. intros c Hc.
    repeat (apply elem_of_cons in Hc as [->|Hc]; [vm_compute; intros H; apply H; reflexivity|]).
    inversion Hc.
  - apply HneC. discriminate.
Defined.

End FilterClaims.

(* ===================================================================== *)
(** * Claims about the citation deduplication                            *)
(* ===================================================================== *)

Section DedupeFacts.
Import Js Rag.

Lemma map_get_set m k v k' :
  map_get (map_set m k v) k' = if decide (k = k') then Some v else map_get m k'.
Proof.
  induction m as [|[k0 v0] m IH]; simpl.
  - repeat case_decide; congruence.
  - destruct (decide (k0 = k)) as [->|Hne]; simpl.
    + repeat case_decide; congruence.
    + rewrite IH. repeat case_decide; congruence.
Qed.

Lemma map_get_None m k : map_get m k = None <-> k ∉ map fst m.
Proof.
  induction m as [|[k0 v0] m IH]; simpl.
  - split; [intros _ H; inversion H|reflexivity].
  - rewrite not_elem_of_cons. case_decide.
    + split; [discriminate|]. intros [Hne _]. congruence.
    + rewrite IH. split; [intros H'; split; [congruence|exact H']|tauto].
Qed.

Lemma map_get_elem m k v : (k, v) ∈ m -> NoDup (map fst m) -> map_get m k = Some v.
Proof.
  induction m as [|[k0 v0] m IH]; simpl; intros Hin Hnd; [inversion Hin|].
  apply NoDup_cons in Hnd as [Hfresh Hnd].
  apply elem_of_cons in Hin as [Heq|Hin].
  - inversion Heq; subst. now rewrite decide_True.
  - case_decide; [|now apply IH]. subst k0.
    exfalso. apply Hfresh. apply (list_elem_of_fmap_2 fst _ (k, v)). exact Hin.
Qed.

Lemma map_set_keys m k v :
  map fst (map_set m k v)
  = if map_has m k then map fst m else map fst m ++ [k].
Proof.
  unfold map_has.
  induction m as [|[k0 v0] m IH]; simpl; [reflexivity|].
  destruct (decide (k0 = k)); simpl; [reflexivity|].
  rewrite IH. now destruct (map_get m k).
Qed.

(** The callback, by cases on what the map holds for the url. *)
Lemma dedupe_step_cases m r :
  dedupe_step m r
  = match map_get m (url r) with
    | None => map_set m (url r) (citationOf r)
    | Some c =>
        if decide (cit_score c < score r)%Qc
        then map_set m (url r) (citationOf r) else m
    end.
Proof.
  unfold dedupe_step, map_has.
  destruct (map_get m (url r)) as [c|]; simpl; [|reflexivity].
  unfold bool_decide. now destruct (decide_rel Qclt (cit_score c) (score r)).
Qed.

Lemma first_occurrences_elem l x : x ∈ first_occurrences l <-> x ∈ l.
Proof.
  induction l as [|y l IH]; simpl; [reflexivity|].
  rewrite !elem_of_cons, list_elem_of_filter, IH.
  destruct (decide (x = y)); tauto.
Qed.

Lemma first_occurrences_NoDup l : NoDup (first_occurrences l).
Proof.
  induction l as [|y l IH]; simpl; [constructor|].
  apply NoDup_cons. split; [|now apply NoDup_filter].
  rewrite list_elem_of_filter. tauto.
Qed.

Lemma first_occurrences_snoc l u :
  first_occurrences (l ++ [u])
  = if decide (u ∈ l) then first_occurrences l else first_occurrences l ++ [u].
Proof.
  induction l as [|y l IH]; cbn [app first_occurrences].
  - case_decide as H; [inversion H|reflexivity].
  - rewrite IH.
    destruct (decide (u ∈ l)) as [Hin|Hnin];
      destruct (decide (u ∈ y :: l)) as [Hyl|Hyl].
    + reflexivity.
    + exfalso. apply Hyl. now right.
    + apply elem_of_cons in Hyl as [->|Hyl]; [|contradiction].
      rewrite filter_app, (filter_cons_False _ y) by tauto.
      rewrite filter_nil. now rewrite app_nil_r.
    + rewrite not_elem_of_cons in Hyl. destruct Hyl as [Hne _].
      rewrite filter_app, (filter_cons_True _ u) by done.
      rewrite filter_nil. reflexivity.
Qed.

Lemma first_occurrences_length l : (length (first_occurrences l) <= length l)%nat.
Proof.
  induction l as [|y l IH]; simpl; [lia|].
  pose proof (length_filter (fun x => x <> y) (first_occurrences l)). lia.
Qed.

Lemma best_for_snoc_other rs r0 u r :
  url r0 <> u -> best_for rs u r -> best_for (rs ++ [r0]) u r.
Proof.
  intros Hne (Hu & before & after & -> & Hb & Ha).
  split; [exact Hu|]. exists before, (after ++ [r0]).
  split; [now rewrite <- app_assoc|]. split; [exact Hb|].
  intros r' Hin Hr'. apply elem_of_app in Hin as [Hin|Hin]; [now apply Ha|].
  apply list_elem_of_singleton in Hin. congruence.
Qed.

Lemma best_for_snoc_keep rs r0 r :
  (score r0 <= score r)%Qc -> best_for rs (url r0) r -> best_for (rs ++ [r0]) (url r0) r.
Proof.
  intros Hle (Hu & before & after & -> & Hb & Ha).
  split; [exact Hu|]. exists before, (after ++ [r0]).
  split; [now rewrite <- app_assoc|]. split; [exact Hb|].
  intros r' Hin Hr'. apply elem_of_app in Hin as [Hin|Hin]; [now apply Ha|].
  apply list_elem_of_singleton in Hin. now subst.
Qed.

Lemma best_for_snoc_replace rs r0 r :
  (score r < score r0)%Qc -> best_for rs (url r0) r -> best_for (rs ++ [r0]) (url r0) r0.
Proof.
  intros Hlt (Hu & before & after & -> & Hb & Ha).
  split; [reflexivity|]. exists (before ++ r :: after), [].
  split; [reflexivity|]. split; [|intros r' H; inversion H].
  intros r' Hin Hr'.
  apply elem_of_app in Hin as [Hin|Hin].
  - eapply Qclt_trans; [now apply Hb|exact Hlt].
  - apply elem_of_cons in Hin as [->|Hin]; [exact Hlt|].
    eapply Qcle_lt_trans; [now apply Ha|exact Hlt].
Qed.

Lemma best_for_snoc_new rs r0 :
  url r0 ∉ map url rs -> best_for (rs ++ [r0]) (url r0) r0.
Proof.
  intros Hnew. split; [reflexivity|]. exists rs, [].
  split; [reflexivity|]. split; [|intros r' H; inversion H].
  intros r' Hin Hr'. exfalso. apply Hnew. rewrite <- Hr'.
  apply (list_elem_of_fmap_2 url). exact Hin.
Qed.

(** What the map holds after the [forEach] over [rs]. *)
Lemma citationsMapOf_inv rs :
  map fst (citationsMapOf rs) = first_occurrences (map url rs)
  /\ forall k c, map_get (citationsMapOf rs) k = Some c ->
                 exists r, c = citationOf r /\ best_for rs k r.
Proof.
  induction rs as [|r0 rs [IHk IHv]] using rev_ind.
  - split; [reflexivity|]. intros k c H. discriminate.
  - unfold citationsMapOf in *. rewrite fold_left_app. cbn [fold_left].
    set (m := fold_left dedupe_step rs []) in *.
    rewrite dedupe_step_cases, map_app. cbn [map]. rewrite first_occurrences_snoc.
    destruct (map_get m (url r0)) as [c0|] eqn:Hget.
    + assert (Hin : url r0 ∈ map url rs).
      { apply first_occurrences_elem. rewrite <- IHk.
        destruct (decide (url r0 ∈ map fst m)) as [H|H]; [exact H|].
        apply map_get_None in H. congruence. }
      destruct (decide (url r0 ∈ map url rs)) as [_|?]; [|contradiction].
      destruct (IHv _ _ Hget) as (rb & -> & Hbest).
      destruct (decide (cit_score (citationOf rb) < score r0)%Qc) as [Hlt|Hge].
      * split.
        { rewrite map_set_keys. unfold map_has. now rewrite Hget. }
        intros k c. rewrite map_get_set. case_decide as Hk.
        -- intros [= <-]. subst k. exists r0. split; [reflexivity|].
           eapply best_for_snoc_replace; [exact Hlt|exact Hbest].
        -- intros Hc. destruct (IHv _ _ Hc) as (r & -> & Hr).
           exists r. split; [reflexivity|]. now apply best_for_snoc_other.
      * split; [exact IHk|].
        intros k c Hc. destruct (decide (url r0 = k)) as [<-|Hk].
        -- rewrite Hget in Hc. injection Hc as <-.
           exists rb. split; [reflexivity|].
           apply best_for_snoc_keep; [|exact Hbest].
           now apply Qcnot_lt_le.
        -- destruct (IHv _ _ Hc) as (r & -> & Hr).
           exists r. split; [reflexivity|]. now apply best_for_snoc_other.
    + assert (Hnin : url r0 ∉ map url rs).
      { rewrite <- first_occurrences_elem, <- IHk. now apply map_get_None. }
      destruct (decide (url r0 ∈ map url rs)) as [?|_]; [contradiction|].
      split.
      { rewrite map_set_keys. unfold map_has. now rewrite Hget, IHk. }
      intros k c. rewrite map_get_set. case_decide as Hk.
      * intros [= <-]. subst k. exists r0. split; [reflexivity|].
        now apply best_for_snoc_new.
      * intros Hc. destruct (IHv _ _ Hc) as (r & -> & Hr).
        exists r. split; [reflexivity|]. now apply best_for_snoc_other.
Qed.

Lemma best_for_max rs u r :
  best_for rs u r ->
  r ∈ rs /\ forall r', r' ∈ rs -> url r' = u -> (score r' <= score r)%Qc.
Proof.
  intros (Hu & before & after & -> & Hb & Ha). split.
  - apply elem_of_app. right. left.
  - intros r' Hin Hr'. apply elem_of_app in Hin as [Hin|Hin].
    + apply Qclt_le_weak. now apply Hb.
    + apply elem_of_cons in Hin as [->|Hin]; [apply Qcle_refl|now apply Ha].
Qed.

End DedupeFacts.

Section DedupeClaims.
Import Js Rag.

(** C5.  The citations carry each distinct url of the candidates exactly
    once, in order of first occurrence.  Each citation is made of the first
    candidate with its url whose score is maximal among the candidates
    sharing the url (a later candidate replaces an earlier one only with a
    strictly greater score), so its score is that maximum.  There are at
    most as many citations as candidates. *)
Theorem dedupe_one_citation_per_url (rs : list Candidate) :
  map cit_url (dedupe rs) = first_occurrences (map url rs)
  /\ NoDup (map cit_url (dedupe rs))
  /\ (forall u, u ∈ map cit_url (dedupe rs) <-> u ∈ map url rs)
  /\ (forall c, c ∈ dedupe rs ->
        (exists r, c = citationOf r /\ best_for rs (cit_url c) r)
        /\ (exists r, r ∈ rs /\ url r = cit_url c /\ score r = cit_score c)
        /\ (forall r, r ∈ rs -> url r = cit_url c -> (score r <= cit_score c)%Qc))
  /\ (length (dedupe rs) <= length rs)%nat.
Proof.
  destruct (citationsMapOf_inv rs) as [Hkeys Hvals].
  assert (Hnd : NoDup (map fst (citationsMapOf rs)))
    by (rewrite Hkeys; apply first_occurrences_NoDup).
  assert (Hentry : forall k c, (k, c) ∈ citationsMapOf rs ->
                     exists r, c = citationOf r /\ best_for rs k r /\ cit_url c = k).
  { intros k c Hin. apply map_get_elem in Hin; [|exact Hnd].
    destruct (Hvals _ _ Hin) as (r & -> & Hr). exists r.
    split; [reflexivity|]. split; [exact Hr|]. apply Hr. }
  assert (Hurls : map cit_url (dedupe rs) = map fst (citationsMapOf rs)).
  { unfold dedupe, map_values. rewrite map_map.
    apply map_ext_in. intros [k c] Hin. apply list_elem_of_In in Hin.
    destruct (Hentry _ _ Hin) as (_ & _ & _ & Hk). exact Hk. }
  split; [now rewrite Hurls|].
  split; [now rewrite Hurls|].
  split; [intros u; rewrite Hurls, Hkeys; apply first_occurrences_elem|].
  split.
  - intros c Hc. unfold dedupe, map_values in Hc.
    apply list_elem_of_fmap in Hc as ([k c'] & -> & Hin). simpl.
    destruct (Hentry _ _ Hin) as (r & -> & Hbest & Hk). simpl in Hk. subst k.
    destruct (best_for_max _ _ _ Hbest) as [Hr Hmax].
    split; [exists r; split; [reflexivity|exact Hbest]|].
    split; [exists r; repeat split; exact Hr|].
    exact Hmax.
  - replace (length (dedupe rs)) with (length (map cit_url (dedupe rs)))
      by apply length_map.
    rewrite Hurls, Hkeys.
    etransitivity; [apply first_occurrences_length|]. now rewrite length_map.
Qed.

Import Scenario.

(** On [threeSources] the citation of ["a"] takes the later, higher score;
    the citation of ["b"] keeps the first of the two equal scores. *)
Lemma dedupe_threeSources :
  dedupe threeSources = [citationOf (cand (9 # 10) "a"); citationOf (cand (8 # 10) "b")].
Proof. vm_compute. reflexivity. Qed.

Lemma dedupe_one_citation_per_url_witness :
  citationOf (cand (9 # 10) "a") ∈ dedupe threeSources
  /\ (forall r, r ∈ threeSources -> Rag.url r = "a" -> (Rag.score r <= Q2Qc (9 # 10))%Qc).
Proof.
  assert (Hin : citationOf (cand (9 # 10) "a") ∈ dedupe threeSources)
    by (rewrite dedupe_threeSources; left).
  split; [exact Hin|].
  destruct (dedupe_one_citation_per_url threeSources) as (_ & _ & _ & H & _).
  exact (proj2 (proj2 (H _ Hin))).
Defined.

End DedupeClaims.

(* ===================================================================== *)
(** * Facts about the session store                                      *)
(* ===================================================================== *)

Section StoreFacts.
Import Js SessionStore Server.

(** Runs store code on a store given field by field. *)
Ltac run_store_in H :=
  cbv beta iota zeta delta
    [appendMessage getHistory resetSession getClient rPush expire lRange_all
     del touchMem round_trip bind ret get modify throw
     has_redis client_open faults redis_db redis_ttl mem timers
     set_client_open set_faults set_redis_db set_redis_ttl set_mem set_timers
     JSON_stringify JSON_parse_or_null fst snd] in H.
Ltac run_store :=
  cbv beta iota zeta delta
    [appendMessage getHistory resetSession getClient rPush expire lRange_all
     del touchMem round_trip bind ret get modify throw
     has_redis client_open faults redis_db redis_ttl mem timers
     set_client_open set_faults set_redis_db set_redis_ttl set_mem set_timers
     JSON_stringify JSON_parse_or_null fst snd].

(** An append either succeeds, and then the turn is at the end of the
    session's log, or it throws, which only happens with Redis: before the
    push (log unchanged) or after it, on [expire] (turn written). *)
Lemma appendMessage_cases sid msg now s r s' :
  appendMessage sid msg now s = (r, s') ->
  has_redis s' = has_redis s
  /\ ((r = Ok tt /\ session_log sid s' = session_log sid s ++ [stored msg now])
      \/ (exists e, r = Throw e /\ has_redis s = true
                    /\ (session_log sid s' = session_log sid s
                        \/ session_log sid s' = session_log sid s ++ [stored msg now]))).
Proof.
  destruct s as [hr co fl db ttl m tm]. destruct hr.
  - destruct co, fl as [|[|] [|[|] [|[|] fl]]]; intros H; run_store_in H.
    all: try rewrite lookup_insert_eq in H.
    all: injection H as <- <-.
    all: (split; [reflexivity|]).
    all: unfold session_log, stored; cbn [has_redis redis_db];
      try rewrite lookup_insert_eq; simpl; try rewrite omap_app; simpl.
    all: try (left; split; reflexivity).
    all: right; eexists; split; [reflexivity|]; split; [reflexivity|];
      (left; reflexivity) || (right; reflexivity).
  - intros H. run_store_in H. injection H as <- <-.
    split; [reflexivity|]. left. split; [reflexivity|].
    unfold session_log, stored. cbn [has_redis mem]. now rewrite lookup_insert_eq.
Qed.

Lemma appendMessage_memory_ok sid msg now s :
  has_redis s = false -> exists s', appendMessage sid msg now s = (Ok tt, s').
Proof.
  destruct s as [hr co fl db ttl m tm]. cbn [has_redis]. intros ->.
  run_store. eexists. reflexivity.
Qed.

Lemma appendMessage_quiet sid msg now s :
  quiet s ->
  exists s', appendMessage sid msg now s = (Ok tt, s')
             /\ quiet s'
             /\ session_log sid s' = session_log sid s ++ [stored msg now].
Proof.
  intros Hq.
  assert (Hok : exists s', appendMessage sid msg now s = (Ok tt, s') /\ quiet s').
  { destruct s as [hr co fl db ttl m tm]. destruct hr.
    - destruct Hq as [Hq|Hq]; cbn in Hq; [discriminate|]. subst fl.
      destruct co; run_store; rewrite lookup_insert_eq;
        (eexists; split; [reflexivity|right; reflexivity]).
    - run_store. eexists. split; [reflexivity|left; reflexivity]. }
  destruct Hok as (s' & He & Hq'). exists s'. split; [exact He|]. split; [exact Hq'|].
  destruct (appendMessage_cases _ _ _ _ _ _ He) as [_ [[_ Hl]|(e & Habs & _)]];
    [exact Hl|discriminate].
Qed.

(** Reading the history writes no session. *)
Lemma getHistory_cases sid s r s' :
  getHistory sid s = (r, s') ->
  has_redis s' = has_redis s
  /\ (forall sid', session_log sid' s' = session_log sid' s)
  /\ (forall h, r = Ok h -> h = session_log sid s).
Proof.
  destruct s as [hr co fl db ttl m tm]. destruct hr.
  - destruct co, fl as [|[|] [|[|] fl]]; intros H; run_store_in H.
    all: injection H as <- <-.
    all: (split; [reflexivity|]); (split; [reflexivity|]).
    all: intros h [= <-]; reflexivity.
  - intros H. run_store_in H. injection H as <- <-.
    split; [reflexivity|]. split; [reflexivity|]. intros h [= <-]. reflexivity.
Qed.

Lemma getHistory_quiet sid s :
  quiet s ->
  exists s', getHistory sid s = (Ok (session_log sid s), s') /\ quiet s'.
Proof.
  intros Hq. destruct s as [hr co fl db ttl m tm]. destruct hr.
  - destruct Hq as [Hq|Hq]; cbn in Hq; [discriminate|]. subst fl.
    destruct co; run_store; (eexists; split; [reflexivity|right; reflexivity]).
  - run_store. eexists. split; [reflexivity|left; reflexivity].
Qed.

(** ** What the operations do to the two maps *)

Lemma appendMessage_data sid msg now s :
  let s' := snd (appendMessage sid msg now s) in
  (mem s' = mem s
   \/ mem s' = <[KEY sid := default [] (mem s !! KEY sid) ++ [stored msg now]]> (mem s))
  /\ (redis_db s' = redis_db s
      \/ redis_db s' = <[KEY sid := default [] (redis_db s !! KEY sid)
                                      ++ [Serialized (stored msg now)]]> (redis_db s)).
Proof.
  destruct s as [hr co fl db ttl m tm]. destruct hr.
  - destruct co, fl as [|[|] [|[|] [|[|] fl]]]; run_store.
    all: try rewrite lookup_insert_eq.
    all: split; (left; reflexivity) || (right; reflexivity).
  - run_store. split; (left; reflexivity) || (right; reflexivity).
Qed.

Lemma getHistory_data sid s :
  mem (snd (getHistory sid s)) = mem s
  /\ redis_db (snd (getHistory sid s)) = redis_db s.
Proof.
  destruct s as [hr co fl db ttl m tm]. destruct hr.
  - destruct co, fl as [|[|] [|[|] fl]]; run_store; split; reflexivity.
  - run_store. split; reflexivity.
Qed.

Lemma resetSession_data sid s :
  let s' := snd (resetSession sid s) in
  (mem s' = mem s \/ mem s' = delete (KEY sid) (mem s))
  /\ (redis_db s' = redis_db s \/ redis_db s' = delete (KEY sid) (redis_db s)).
Proof.
  destruct s as [hr co fl db ttl m tm]. destruct hr.
  - destruct co, fl as [|[|] [|[|] fl]]; run_store.
    all: split; (left; reflexivity) || (right; reflexivity).
  - run_store. split; (left; reflexivity) || (right; reflexivity).
Qed.

(** ** Every stored entry is a turn *)

Lemma stored_turn_is_turn message role now : is_turn (stored (turn message role) now).
Proof.
  unfold is_turn, stored, turn. split; [|split].
  - exists message. now simplify_map_eq.
  - exists role. now simplify_map_eq.
  - now simplify_map_eq.
Qed.

Lemma well_formed_same s s' :
  mem s' = mem s -> redis_db s' = redis_db s -> well_formed s -> well_formed s'.
Proof. unfold well_formed. intros -> ->. tauto. Qed.

Lemma Forall_insert_snoc {V} (P : V -> Prop) (m : gmap string (list V)) k x :
  (forall k l, m !! k = Some l -> Forall P l) -> P x ->
  forall k' l, <[k := default [] (m !! k) ++ [x]]> m !! k' = Some l -> Forall P l.
Proof.
  intros Hm Hx k' l. rewrite lookup_insert. case_decide as Hk.
  - intros [= <-]. apply Forall_app. split; [|now constructor].
    destruct (m !! k) as [l0|] eqn:Hl0; simpl; [now apply (Hm k)|constructor].
  - apply Hm.
Qed.

Lemma Forall_delete {V} (P : V -> Prop) (m : gmap string (list V)) k :
  (forall k l, m !! k = Some l -> Forall P l) ->
  forall k' l, delete k m !! k' = Some l -> Forall P l.
Proof.
  intros Hm k' l. rewrite lookup_delete. case_decide; [discriminate|apply Hm].
Qed.

Lemma appendMessage_well_formed sid message role now s :
  well_formed s -> well_formed (snd (appendMessage sid (turn message role) now s)).
Proof.
  intros [Hm Hr].
  destruct (appendMessage_data sid (turn message role) now s) as [Hmem Hdb].
  split.
  - destruct Hmem as [->| ->]; [exact Hm|].
    apply Forall_insert_snoc; [exact Hm|apply stored_turn_is_turn].
  - destruct Hdb as [->| ->]; [exact Hr|].
    apply Forall_insert_snoc; [exact Hr|].
    intros o [= <-]. apply stored_turn_is_turn.
Qed.

Lemma resetSession_well_formed sid s :
  well_formed s -> well_formed (snd (resetSession sid s)).
Proof.
  intros [Hm Hr]. destruct (resetSession_data sid s) as [Hmem Hdb]. split.
  - destruct Hmem as [->| ->]; [exact Hm|now apply Forall_delete].
  - destruct Hdb as [->| ->]; [exact Hr|now apply Forall_delete].
Qed.

Lemma session_log_well_formed sid s :
  well_formed s -> Forall is_turn (session_log sid s).
Proof.
  intros [Hm Hr]. unfold session_log. destruct (has_redis s).
  - destruct (redis_db s !! KEY sid) as [l|] eqn:Hl; simpl; [|constructor].
    specialize (Hr _ _ Hl). clear Hl. induction Hr as [|e l He _ IH]; [constructor|].
    cbn. destruct (JSON_parse_or_null e) as [o|] eqn:Ho; [|exact IH].
    constructor; [now apply He|exact IH].
  - destruct (mem s !! KEY sid) as [l|] eqn:Hl; simpl; [now apply (Hm _ _ Hl)|constructor].
Qed.

Lemma appendAll_quiet sid turns : forall s,
  quiet s ->
  exists s', appendAll sid turns s = (Ok tt, s')
             /\ quiet s'
             /\ session_log sid s'
                = session_log sid s ++ map (fun t => stored (fst t) (snd t)) turns.
Proof.
  induction turns as [|[msg now] turns IH]; intros s Hq; cbn [appendAll map fst snd].
  - exists s. split; [reflexivity|]. split; [exact Hq|]. now rewrite app_nil_r.
  - destruct (appendMessage_quiet sid msg now s Hq) as (s1 & He1 & Hq1 & Hl1).
    destruct (IH s1 Hq1) as (s2 & He2 & Hq2 & Hl2).
    exists s2. unfold bind. rewrite He1, He2.
    split; [reflexivity|]. split; [exact Hq2|].
    rewrite Hl2, Hl1, <- app_assoc. reflexivity.
Qed.

Lemma timer_fires_log sid s :
  has_redis s = false -> session_log sid (timer_fires sid s) = [].
Proof.
  intros Hr. unfold session_log, timer_fires. cbn. rewrite Hr.
  now rewrite lookup_delete_eq.
Qed.

Lemma redis_key_expires_log sid s :
  has_redis s = true -> session_log sid (redis_key_expires sid s) = [].
Proof.
  intros Hr. unfold session_log, redis_key_expires. cbn. rewrite Hr.
  now rewrite lookup_delete_eq.
Qed.

End StoreFacts.

Section StoreClaims.
Import Js SessionStore Server.


Import Scenario.


End StoreClaims.

(* ===================================================================== *)
(** * Claims about the chat orchestrator                                 *)
(* ===================================================================== *)

Section ChatFacts.
Import Js Retry Prompt SessionStore Rag.

Variable vector : Type.
Variable getEmbedding : string -> result vector.
Variable search : string -> vector -> nat -> result (list Candidate).
Variable classifier : jserror -> verdict.
Variable generateContent : string -> nat -> result GenResponse.
Variable COLLECTION : string.

Let generate := generate vector getEmbedding search classifier generateContent COLLECTION.
Let handleChat_try :=
  handleChat_try vector getEmbedding search classifier generateContent COLLECTION.
Let handleChat :=
  handleChat vector getEmbedding search classifier generateContent COLLECTION.

(** The [try] block is the generation part followed by the two appends. *)
Lemma handleChat_try_split sid message now_u now_a s :
  handleChat_try sid message now_u now_a s
  = (rc <- generate sid message ;;
     appendMessage sid (turn message "user") now_u ;;;
     appendMessage sid (turn (fst rc) "assistant") now_a ;;;
     ret rc) s.
Proof.
  unfold handleChat_try, Rag.handleChat_try, generate, Rag.generate, bind, lift, ret.
  destruct (getHistory sid s) as [[h|e] s1]; [|reflexivity].
  destruct (getEmbedding message) as [qv|e]; [|reflexivity].
  destruct (search COLLECTION qv 8%nat) as [rs|e]; [|reflexivity].
  destruct (answerWithContext _ _ _ _ _) as [reply|e]; [|reflexivity].
  cbn [fst].
  destruct (appendMessage sid (turn message "user") now_u s1) as [[[]|e] s2];
    [|reflexivity].
  destruct (appendMessage sid (turn reply "assistant") now_a s2) as [[[]|e] s3];
    reflexivity.
Qed.

(** Generation writes no session. *)
Lemma generate_cases sid message s r s0 :
  generate sid message s = (r, s0) ->
  has_redis s0 = has_redis s
  /\ forall sid', session_log sid' s0 = session_log sid' s.
Proof.
  unfold generate, Rag.generate, bind, lift, ret.
  destruct (getHistory sid s) as [rh s1] eqn:Hh.
  destruct (getHistory_cases _ _ _ _ Hh) as (Hr & Hl & _).
  intros H. assert (s0 = s1) as ->; [|split; assumption].
  destruct rh as [h|e]; [|congruence].
  destruct (getEmbedding message) as [qv|e]; [|congruence].
  destruct (search COLLECTION qv 8%nat) as [rs|e]; [|congruence].
  destruct (answerWithContext _ _ _ _ _) as [reply|e]; congruence.
Qed.

Lemma generate_state sid message s :
  snd (generate sid message s) = snd (getHistory sid s).
Proof.
  unfold generate, Rag.generate, bind, lift, ret.
  destruct (getHistory sid s) as [[h|e] s1]; [|reflexivity].
  destruct (getEmbedding message) as [qv|e]; [|reflexivity].
  destruct (search COLLECTION qv 8%nat) as [rs|e]; [|reflexivity].
  destruct (answerWithContext _ _ _ _ _) as [reply|e]; reflexivity.
Qed.

Lemma handleChat_well_formed sid message now_u now_a s :
  Server.well_formed s ->
  Server.well_formed (snd (handleChat sid message now_u now_a s)).
Proof.
  intros Hs. unfold handleChat, Rag.handleChat, try_catch.
  fold (handleChat_try sid message now_u now_a s).
  rewrite handleChat_try_split. unfold bind, ret, throw.
  assert (H0 : Server.well_formed (snd (generate sid message s))).
  { rewrite generate_state. destruct (getHistory_data sid s) as [Hm Hr].
    exact (well_formed_same _ _ Hm Hr Hs). }
  destruct (generate sid message s) as [[[reply cits]|e0] s0]; cbn [fst snd] in *;
    [|exact H0].
  pose proof (appendMessage_well_formed sid message "user" now_u s0 H0) as H1.
  destruct (appendMessage sid (turn message "user") now_u s0) as [[[]|e1] s1];
    cbn [fst snd] in *; [|exact H1].
  pose proof (appendMessage_well_formed sid reply "assistant" now_a s1 H1) as H2.
  destruct (appendMessage sid (turn reply "assistant") now_a s1) as [[[]|e2] s2];
    cbn [fst snd] in *; exact H2.
Qed.

End ChatFacts.

Section ServerFacts.
Import Js SessionStore Rag Server.

(** Every store of a running server holds turns only. *)
Lemma reachable_well_formed s : reachable s -> well_formed s.
Proof.
  induction 1 as [| |s vector ge se cl gc co sid msg nu na _ IH|s sid _ IH|s sid _ IH
                  |s sid _ IH|s sid _ IH|s schedule _ IH].
  - split; intros k l; cbn; rewrite lookup_empty; discriminate.
  - split; intros k l; cbn; rewrite lookup_empty; discriminate.
  - now apply handleChat_well_formed.
  - destruct (getHistory_data sid s) as [Hm Hr]. exact (well_formed_same _ _ Hm Hr IH).
  - now apply resetSession_well_formed.
  - destruct IH as [Hm Hr]. split; [|exact Hr]. cbn. now apply Forall_delete.
  - destruct IH as [Hm Hr]. split; [exact Hm|]. cbn. now apply Forall_delete.
  - exact IH.
Qed.

End ServerFacts.

(* ===================================================================== *)
(** * Claims about the prompt                                            *)
(* ===================================================================== *)

Section PromptFacts.
Import Js Prompt SessionStore Server.

Lemma histLine_turn o : is_turn o -> histLine o = Ok (turn_line o).
Proof.
  intros (_ & [r Hr] & Hc). unfold histLine, turn_line, role_of.
  now rewrite Hr, Hc.
Qed.

Lemma histLines_turns l : Forall is_turn l -> histLines l = Ok (map turn_line l).
Proof.
  induction 1 as [|o l Ho _ IH]; [reflexivity|].
  cbn [histLines map]. now rewrite (histLine_turn o Ho), IH.
Qed.

Lemma histLine_rewrite_message f o : histLine (rewrite_message f o) = histLine o.
Proof.
  unfold rewrite_message, histLine.
  destruct (o !! "message") as [[m|n]|]; [|reflexivity|reflexivity].
  now rewrite !lookup_insert_ne by done.
Qed.

Lemma histLines_rewrite_message f l :
  histLines (map (rewrite_message f) l) = histLines l.
Proof.
  induction l as [|o l IH]; [reflexivity|].
  cbn [histLines map]. now rewrite histLine_rewrite_message, IH.
Qed.

Lemma slice_last_map {A B} (g : A -> B) n l :
  slice_last n (map g l) = map g (slice_last n l).
Proof. unfold slice_last. rewrite length_map. symmetry. apply (fmap_drop g). Qed.

Lemma slice_last_Forall {A} (P : A -> Prop) n l :
  Forall P l -> Forall P (slice_last n l).
Proof. apply Forall_drop. Qed.

End PromptFacts.

Section PromptClaims.
Import Js Prompt SessionStore Rag Server.

(** C9.  Every turn that the session store of a running server returns is
    stored under [message] and has no [content].  The CHAT HISTORY section
    built from such a history consists of one line per turn of the last
    six, [ROLE: undefined], and it is the same whatever the message texts
    are: the stored text is never put into it. *)
Theorem chat_history_omits_messages (s s' : store) (sid : string) (h : list jsobj) :
  reachable s ->
  getHistory sid s = (Ok h, s') ->
  Forall (fun o => (exists m, o !! "message" = Some (JStr m)) /\ o !! "content" = None) h
  /\ histText h
     = Ok (join nl (map (fun o => toUpperCase (role_of o) +:+ ": undefined")
                        (slice_last 6 h)))
  /\ forall f : string -> string, histText (map (rewrite_message f) h) = histText h.
Proof.
  intros Hreach Hh.
  assert (Hturns : Forall is_turn h).
  { destruct (getHistory_cases _ _ _ _ Hh) as (_ & _ & Hlog).
    rewrite (Hlog h eq_refl).
    apply session_log_well_formed. now apply reachable_well_formed. }
  split; [|split].
  - eapply Forall_impl; [exact Hturns|]. intros o (Hm & _ & Hc). now split.
  - unfold histText.
    now rewrite (histLines_turns _ (slice_last_Forall _ 6 _ Hturns)).
  - intros f. unfold histText.
    now rewrite slice_last_map, histLines_rewrite_message.
Qed.

Import Scenario.

(** After one chat request the history has the two turns, and the section
    reads [USER: undefined] and [ASSISTANT: undefined]. *)
Lemma chat_history_omits_messages_witness :
  histText (session_log "s1" (snd (chat "s1" "hi" 1000 1001 fresh_memory_store)))
  = Ok ("USER: undefined" +:+ nl +:+ "ASSISTANT: undefined").
Proof.
  pose (s := snd (chat "s1" "hi" 1000 1001 fresh_memory_store)).
  assert (Hreach : reachable s) by (apply after_chat, start_memory).
  destruct (chat_history_omits_messages s (snd (getHistory "s1" s)) "s1"
              (session_log "s1" s) Hreach) as (_ & Hsec & _).
  - vm_compute. reflexivity.
  - fold s. rewrite Hsec. vm_compute. reflexivity.
Defined.

End PromptClaims.

Section ChatClaims.
Import Js Retry Prompt SessionStore Rag.

Variable vector : Type.
Variable getEmbedding : string -> result vector.
Variable search : string -> vector -> nat -> result (list Candidate).
Variable classifier : jserror -> verdict.
Variable generateContent : string -> nat -> result GenResponse.
Variable COLLECTION : string.

(** C3 (as amended).  A request that succeeds has appended the user turn
    and then the assistant turn to the session's log.  A request that fails
    at or before generation leaves the log as it was, and so does every
    failed request on the in-memory backend.  On the Redis backend a
    request that fails while persisting leaves the log unchanged, or with
    the user turn appended, or with both turns appended. *)
Theorem handleChat_session_writes (sid message : string) (now_u now_a : Z)
        (s s' : store) (r : result (string * list Citation)) :
  handleChat vector getEmbedding search classifier generateContent COLLECTION
             sid message now_u now_a s = (r, s') ->
  let before := session_log sid s in
  let after := session_log sid s' in
  let user := stored (turn message "user") now_u in
  let assistant := fun reply => stored (turn reply "assistant") now_a in
  (forall reply cits, r = Ok (reply, cits) ->
      after = before ++ [user; assistant reply])
  /\ (forall e0 s0,
        generate vector getEmbedding search classifier generateContent COLLECTION
                 sid message s = (Throw e0, s0) ->
        r = Throw (Error "Failed to process chat message") /\ after = before)
  /\ (has_redis s = false ->
        forall e, r = Throw e -> after = before)
  /\ (forall e, r = Throw e ->
        e = Error "Failed to process chat message"
        /\ (after = before
            \/ after = before ++ [user]
            \/ exists reply, after = before ++ [user; assistant reply])).
Proof.
  intros H before after user assistant. subst before after user assistant.
  unfold handleChat, try_catch in H.
  rewrite handleChat_try_split in H. unfold bind, ret, throw in H.
  destruct (generate _ _ _ _ _ _ sid message s) as [rg s0] eqn:Hg.
  destruct (generate_cases _ _ _ _ _ _ _ _ _ _ _ Hg) as [Hr0 Hl0].
  destruct rg as [[reply cits]|e0].
  - cbn [fst] in H.
    destruct (appendMessage sid (turn message "user") now_u s0) as [r1 s1] eqn:H1.
    destruct (appendMessage_cases _ _ _ _ _ _ H1) as [Hr1 K1].
    destruct r1 as [[]|e1].
    + destruct K1 as [[_ Hl1]|(e & Habs & _)]; [|discriminate].
      destruct (appendMessage sid (turn reply "assistant") now_a s1) as [r2 s2] eqn:H2.
      destruct (appendMessage_cases _ _ _ _ _ _ H2) as [Hr2 K2].
      destruct r2 as [[]|e2]; injection H as <- <-.
      * destruct K2 as [[_ Hl2]|(e & Habs & _)]; [|discriminate].
        rewrite Hl2, Hl1, Hl0, <- app_assoc.
        split; [intros ? ? [= <- <-]; reflexivity|].
        split; [intros ? ? [=]|]. split; intros; discriminate.
      * destruct K2 as [[Habs _]|(e & _ & Hred & Hl2)]; [discriminate|].
        split; [intros ? ? [=]|]. split; [intros ? ? [=]|].
        split; [intros Hmem; congruence|].
        intros e' [= <-]. split; [reflexivity|]. right.
        destruct Hl2 as [Hl2|Hl2]; rewrite Hl2, Hl1, Hl0.
        -- left. reflexivity.
        -- right. exists reply. now rewrite <- app_assoc.
    + injection H as <- <-.
      destruct K1 as [[Habs _]|(e & _ & Hred & Hl1)]; [discriminate|].
      split; [intros ? ? [=]|]. split; [intros ? ? [=]|].
      split; [intros Hmem; congruence|].
      intros e' [= <-]. split; [reflexivity|].
      destruct Hl1 as [Hl1|Hl1]; rewrite Hl1, Hl0; [left|right; left]; reflexivity.
  - injection H as <- <-. rewrite Hl0.
    split; [intros ? ? [=]|].
    split; [intros ? ? _; split; reflexivity|].
    split; [reflexivity|].
    intros e' [= <-]. split; [reflexivity|left; reflexivity].
Qed.

End ChatClaims.

Section ChatScenarios.
Import Js SessionStore Rag Scenario.

(** On the in-memory backend the request succeeds and both turns are in
    the log, the user's first. *)
Lemma handleChat_session_writes_witness :
  fst (chat "s1" "hi" 1000 1001 fresh_memory_store)
  = Ok ("reply", [citationOf (cand (9 # 10) "a")])
  /\ session_log "s1" (snd (chat "s1" "hi" 1000 1001 fresh_memory_store))
     = session_log "s1" fresh_memory_store
       ++ [stored (turn "hi" "user") 1000; stored (turn "reply" "assistant") 1001].
Proof.
  assert (Hr : fst (chat "s1" "hi" 1000 1001 fresh_memory_store)
               = Ok ("reply", [citationOf (cand (9 # 10) "a")]))
    by (vm_compute; reflexivity).
  split; [exact Hr|].
  refine (proj1 (handleChat_session_writes unit embed_ok search_ok Retry.classify
                   generate_ok "news" "s1" "hi" 1000 1001 fresh_memory_store
                   (snd (chat "s1" "hi" 1000 1001 fresh_memory_store))
                   (fst (chat "s1" "hi" 1000 1001 fresh_memory_store)) _) _ _ Hr).
  apply surjective_pairing.
Defined.

(** C3 as stated fails.  The second [appendMessage] throws, the request
    fails, and the session's log, empty before the request, holds the
    user turn alone. *)
Lemma handleChat_partial_write :
  fst (chat "s1" "hi" 1000 1001 redis_lost_at_fifth)
  = Throw (Error "Failed to process chat message")
  /\ session_log "s1" redis_lost_at_fifth = []
  /\ session_log "s1" (snd (chat "s1" "hi" 1000 1001 redis_lost_at_fifth))
     = [stored (turn "hi" "user") 1000]
  /\ session_log "s1" (snd (chat "s1" "hi" 1000 1001 redis_lost_at_fifth))
     <> session_log "s1" redis_lost_at_fifth.
Proof.
  assert (Hl : session_log "s1" (snd (chat "s1" "hi" 1000 1001 redis_lost_at_fifth))
               = [stored (turn "hi" "user") 1000]) by (vm_compute; reflexivity).
  split; [vm_compute; reflexivity|].
  split; [reflexivity|]. split; [exact Hl|].
  rewrite Hl. discriminate.
Qed.

End ChatScenarios.

(* ===================================================================== *)
(** * Claims about the ingestion loop                                    *)
(* ===================================================================== *)

Section IngestFacts.
Import Js Chunker Ingest.

Variable vector : Type.
Variable scrape : nat -> string -> result Document.
Variable embedMany : nat -> list jsstring -> result (list vector).
Variable upsertPoints : nat -> list (Point vector) -> result unit.
Variable uuid : nat -> string.

Local Abbreviation state := (state vector).
Local Abbreviation silent_step := (silent_step vector).
Local Abbreviation silent := (silent vector).

Lemma silent_step_refl (s : state) : silent_step s s.
Proof. split; [reflexivity|]. exists []. now rewrite app_nil_r. Qed.

Lemma silent_step_trans (s1 s2 s3 : state) :
  silent_step s1 s2 -> silent_step s2 s3 -> silent_step s1 s3.
Proof.
  intros [Hp1 (e1 & Hc1 & Hi1)] [Hp2 (e2 & Hc2 & Hi2)].
  split; [congruence|]. exists (e1 ++ e2).
  split; [now rewrite Hc2, Hc1, <- app_assoc|now apply Forall_app].
Qed.

Lemma silent_ret {A} (a : A) : silent (ret a).
Proof. intros s. apply silent_step_refl. Qed.

Lemma silent_throw {A} e : silent (throw e : Eff state A).
Proof. intros s. apply silent_step_refl. Qed.

Lemma silent_lift {A} (r : result A) : silent (lift r).
Proof. intros s. apply silent_step_refl. Qed.

Lemma silent_tick : silent (tick vector).
Proof. intros s. split; [reflexivity|]. exists []. cbn. now rewrite app_nil_r. Qed.

Lemma silent_log ev : inert ev -> silent (log vector ev).
Proof. intros Hev s. split; [reflexivity|]. exists [ev]. split; [reflexivity|]. now constructor. Qed.

Lemma silent_bind {A B} (m : Eff state A) (k : A -> Eff state B) :
  silent m -> (forall a, silent (k a)) -> silent (bind m k).
Proof.
  intros Hm Hk s. unfold bind. specialize (Hm s).
  destruct (m s) as [[a|e] s1]; cbn [snd] in *; [|exact Hm].
  eapply silent_step_trans; [exact Hm|apply Hk].
Qed.

Lemma silent_try_catch {A} (m : Eff state A) (h : jserror -> Eff state A) :
  silent m -> (forall e, silent (h e)) -> silent (try_catch m h).
Proof.
  intros Hm Hh s. unfold try_catch. specialize (Hm s).
  destruct (m s) as [[a|e] s1]; cbn [snd] in *; [exact Hm|].
  eapply silent_step_trans; [exact Hm|apply Hh].
Qed.

Lemma embedGroups_silent groups : forall vectors,
  silent (embedGroups vector embedMany groups vectors).
Proof.
  induction groups as [|group rest IH]; intros vectors; cbn [embedGroups].
  - apply silent_ret.
  - apply silent_bind; [apply silent_log; repeat split|]. intros _.
    apply silent_bind; [apply silent_tick|]. intros n.
    apply silent_bind; [|intros v; apply IH].
    apply silent_try_catch; [apply silent_lift|]. intros e.
    apply silent_bind; [apply silent_log; repeat split|]. intros _.
    apply silent_throw.
Qed.

Lemma makePoints_silent doc chunks : forall idx vectors,
  silent (makePoints vector uuid doc chunks idx vectors).
Proof.
  induction chunks as [|chunk rest IH]; intros idx vectors; cbn [makePoints].
  - apply silent_ret.
  - apply silent_bind; [apply silent_tick|]. intros n.
    apply silent_bind; [apply IH|]. intros pts. apply silent_ret.
Qed.

Lemma makePoints_returns doc chunks : forall idx vectors s,
  exists pts, fst (makePoints vector uuid doc chunks idx vectors s) = Ok pts.
Proof.
  induction chunks as [|chunk rest IH]; intros idx vectors s; cbn [makePoints].
  - exists []. reflexivity.
  - unfold bind, tick, ret. cbn.
    match goal with |- context [makePoints _ _ _ _ ?i ?v ?s'] =>
      destruct (IH i v s') as [pts Hpts];
      destruct (makePoints vector uuid doc rest i v s') as [r s1] end.
    cbn in Hpts. subst r. eexists. reflexivity.
Qed.

Local Abbreviation ingest_try := (ingest_try vector scrape embedMany upsertPoints uuid).
Local Abbreviation ingest_url := (ingest_url vector scrape embedMany upsertPoints uuid).
Local Abbreviation ingest_loop := (ingest_loop vector scrape embedMany upsertPoints uuid).

(** The [try] block ends in one of three ways: it returns after
    [Ingested] with one more URL processed, it returns after
    [SkipTooShort], or it throws; in the last two cases the count of
    processed URLs is unchanged.  Before that it prints inert lines only. *)
Lemma ingest_try_outcome url (s : state) :
  exists evs, Forall inert evs /\
    match ingest_try url s with
    | (Ok _, s') =>
        exists t, console s' = console s ++ evs ++ [t]
                  /\ is_error t = false /\ fetched_url t = None
                  /\ ((is_ingested t = true /\ is_skip t = false
                       /\ processed s' = S (processed s))
                      \/ (is_skip t = true /\ is_ingested t = false
                          /\ processed s' = processed s))
    | (Throw _, s') => console s' = console s ++ evs /\ processed s' = processed s
    end.
Proof.
  unfold Ingest.ingest_try. unfold bind at 1. cbn [tick].
  unfold bind at 1. unfold lift at 1.
  destruct (scrape (calls s) url) as [doc|e].
  2:{ exists []. split; [constructor|]. cbn. now rewrite app_nil_r. }
  unfold bind at 1. cbn [log modify processed db out console calls].
  destruct (length (doc_text doc) <? 500)%nat.
  { exists [Scraped (doc_title doc) (length (doc_text doc))].
    split; [constructor; [repeat split|constructor]|].
    cbn. exists (SkipTooShort url). rewrite <- app_assoc.
    split; [reflexivity|]. split; [reflexivity|]. split; [reflexivity|].
    right. repeat split. }
  generalize (chunkText_default (doc_text doc)). intros chunks.
  set (s1 := {| processed := processed s; db := db s; out := out s;
                console := console s ++ [Scraped (doc_title doc) (length (doc_text doc))];
                calls := S (calls s) |}).
  assert (H1 : silent_step s s1).
  { split; [reflexivity|]. eexists. split; [reflexivity|].
    constructor; [repeat split|constructor]. }
  unfold bind at 1.
  pose proof (embedGroups_silent (chunkArray chunks 4) [] s1) as H2.
  destruct (embedGroups _ _ _ _ s1) as [[vectors|e] s2]; cbn [snd] in H2.
  2:{ destruct (silent_step_trans _ _ _ H1 H2) as [Hp (evs & Hc & Hi)].
      exists evs. split; [exact Hi|]. cbn. split; assumption. }
  unfold bind at 1.
  pose proof (makePoints_silent doc chunks 0 vectors s2) as H3.
  destruct (makePoints_returns doc chunks 0 vectors s2) as [pts Hpts].
  destruct (makePoints _ _ _ _ _ _ s2) as [r3 s3]; cbn [fst snd] in H3, Hpts. subst r3.
  destruct (silent_step_trans _ _ _ (silent_step_trans _ _ _ H1 H2) H3)
    as [Hp (evs & Hc & Hi)].
  exists evs. split; [exact Hi|].
  unfold bind at 1. cbn [tick]. unfold bind at 1. unfold lift at 1.
  destruct (upsertPoints (calls s3) pts) as [u|e].
  2:{ cbn. split; assumption. }
  cbn. exists (Ingested (doc_title doc) (length pts)).
  rewrite Hc, Hp, <- app_assoc. split; [reflexivity|].
  split; [reflexivity|]. split; [reflexivity|]. left. repeat split.
Qed.

Lemma inert_counts evs :
  Forall inert evs ->
  omap fetched_url evs = []
  /\ countb is_ingested evs = 0%nat /\ countb is_skip evs = 0%nat
  /\ countb is_error evs = 0%nat.
Proof.
  unfold countb.
  induction 1 as [|ev evs (Hf & Hi & Hs & He) _ (IHf & IHi & IHs & IHe)];
    [repeat split|].
  cbn. rewrite Hf, Hi, Hs, He. repeat split; assumption.
Qed.

Lemma countb_app f l1 l2 : countb f (l1 ++ l2) = (countb f l1 + countb f l2)%nat.
Proof. unfold countb. now rewrite List.filter_app, length_app. Qed.

(** One iteration prints its [Fetching] line, then inert lines, then
    exactly one closing line. *)
Lemma ingest_url_outcome total i url (s : state) :
  let s' := ingest_url total i url s in
  exists evs,
    console s' = console s ++ evs
    /\ omap fetched_url evs = [url]
    /\ (countb is_ingested evs + countb is_skip evs + countb is_error evs = 1)%nat
    /\ processed s' = (processed s + countb is_ingested evs)%nat.
Proof.
  intros s'.
  pose (s0 := {| processed := processed s; db := db s; out := out s;
                 console := console s ++ [Fetching (i + 1) total url];
                 calls := calls s |}).
  assert (Hs' : s' = match ingest_try url s0 with
                     | (Ok _, s1) => s1
                     | (Throw e, s1) =>
                         snd (log vector (ErrorForURL url (err_message e)) s1)
                     end) by reflexivity.
  clearbody s'.
  destruct (ingest_try_outcome url s0) as (evs & Hi & Hout).
  destruct (inert_counts evs Hi) as (Hf & Hci & Hcs & Hce).
  destruct (ingest_try url s0) as [[u|e] s1]; subst s'.
  - destruct Hout as (t & Hc & Het & Hft & Hcase).
    exists ([Fetching (i + 1) total url] ++ evs ++ [t]).
    split; [rewrite Hc; unfold s0; cbn [console]; now rewrite <- app_assoc|].
    split; [rewrite !omap_app, Hf; cbn; now rewrite Hft|].
    rewrite !countb_app, Hci, Hcs, Hce. unfold countb.
    cbn [List.filter is_ingested is_skip is_error length]. rewrite Het.
    destruct Hcase as [(-> & -> & Hp)|(-> & -> & Hp)];
      cbn [length]; rewrite Hp; unfold s0; cbn [processed]; lia.
  - destruct Hout as [Hc Hp].
    exists ([Fetching (i + 1) total url] ++ evs ++ [ErrorForURL url (err_message e)]).
    split; [cbn [log modify snd console]; rewrite Hc; unfold s0; cbn [console];
            now rewrite <- !app_assoc|].
    split; [rewrite !omap_app, Hf; reflexivity|].
    rewrite !countb_app, Hci, Hcs, Hce. unfold countb.
    cbn [List.filter is_ingested is_skip is_error length log modify snd processed].
    rewrite Hp. unfold s0. cbn [processed]. lia.
Qed.

Lemma ingest_loop_outcome total urls : forall i (s : state),
  let s' := ingest_loop total i urls s in
  exists evs,
    console s' = console s ++ evs
    /\ omap fetched_url evs = urls
    /\ (countb is_ingested evs + countb is_skip evs + countb is_error evs
        = length urls)%nat
    /\ processed s' = (processed s + countb is_ingested evs)%nat.
Proof.
  induction urls as [|url rest IH]; intros i s; cbn [Ingest.ingest_loop].
  - exists []. cbn. rewrite app_nil_r. repeat split; lia.
  - destruct (ingest_url_outcome total i url s) as (e1 & Hc1 & Hf1 & Hn1 & Hp1).
    destruct (IH (S i) (ingest_url total i url s)) as (e2 & Hc2 & Hf2 & Hn2 & Hp2).
    exists (e1 ++ e2). cbv zeta in *.
    split; [now rewrite Hc2, Hc1, <- app_assoc|].
    split; [now rewrite omap_app, Hf1, Hf2|].
    rewrite !countb_app. cbn [length]. split; lia.
Qed.

End IngestFacts.

Section IngestClaims.
Import Js Chunker Ingest.

Variable vector : Type.
Variable scrape : nat -> string -> result Document.
Variable embedMany : nat -> list jsstring -> result (list vector).
Variable upsertPoints : nat -> list (Point vector) -> result unit.
Variable uuid : nat -> string.

Local Abbreviation ingest_url := (ingest_url vector scrape embedMany upsertPoints uuid).
Local Abbreviation ingest_loop := (ingest_loop vector scrape embedMany upsertPoints uuid).
Local Abbreviation main_loop := (main_loop vector scrape embedMany upsertPoints uuid).


End IngestClaims.

Section IngestScenario.
Import Js Ingest Scenario.


End IngestScenario.

(* ===================================================================== *)
(** * More about the chunker                                             *)
(* ===================================================================== *)

Section TrimFacts.
Import Js.

Lemma last_rev_head {A} (l : list A) : last (rev l) = head l.
Proof.
  destruct l as [|x l]; [reflexivity|]. simpl. apply last_snoc.
Qed.

Lemma head_rev_last {A} (l : list A) : head (rev l) = last l.
Proof. rewrite <- (rev_involutive l) at 2. symmetry. apply last_rev_head. Qed.

Lemma trimStart_head s ch : head (trimStart s) = Some ch -> is_white ch = false.
Proof.
  induction s as [|c s IH]; simpl; [discriminate|].
  destruct (is_white c) eqn:Hc; [exact IH|]. simpl. congruence.
Qed.

Lemma trimStart_fix s :
  (forall ch, head s = Some ch -> is_white ch = false) -> trimStart s = s.
Proof.
  destruct s as [|c s]; [reflexivity|]. simpl. intros H.
  now rewrite (H c eq_refl).
Qed.

Lemma trimEnd_prefix s : trimEnd s `prefix_of` s.
Proof.
  unfold trimEnd. destruct (trimStart_suffix (rev s)) as [k Hk].
  exists (rev k). apply (f_equal (@rev N)) in Hk.
  now rewrite rev_involutive, rev_app_distr in Hk.
Qed.

Lemma trimEnd_last s ch : last (trimEnd s) = Some ch -> is_white ch = false.
Proof. unfold trimEnd. rewrite last_rev_head. apply trimStart_head. Qed.

Lemma trimEnd_head s ch : head (trimEnd s) = Some ch -> head s = Some ch.
Proof.
  destruct (trimEnd_prefix s) as [k Hk]. rewrite Hk at 2.
  destruct (trimEnd s); [discriminate|]. simpl. congruence.
Qed.

Lemma trimEnd_fix s :
  (forall ch, last s = Some ch -> is_white ch = false) -> trimEnd s = s.
Proof.
  intros H. unfold trimEnd. rewrite trimStart_fix; [apply rev_involutive|].
  intros ch. rewrite head_rev_last. apply H.
Qed.

(** A trimmed string neither begins nor ends with white space. *)
Lemma trim_head s ch : head (trim s) = Some ch -> is_white ch = false.
Proof. unfold trim. intros H. apply trimEnd_head in H. now apply trimStart_head in H. Qed.

Lemma trim_last s ch : last (trim s) = Some ch -> is_white ch = false.
Proof. apply trimEnd_last. Qed.

Lemma trim_fix s :
  (forall ch, head s = Some ch -> is_white ch = false) ->
  (forall ch, last s = Some ch -> is_white ch = false) ->
  trim s = s.
Proof. intros Hh Hl. unfold trim. rewrite (trimStart_fix s Hh). now apply trimEnd_fix. Qed.

Lemma trim_idempotent s : trim (trim s) = trim s.
Proof. apply trim_fix; [apply trim_head|apply trim_last]. Qed.

(** A trimmed string is a contiguous piece of the string. *)
Lemma trim_piece s : exists pre post, s = pre ++ trim s ++ post.
Proof.
  unfold trim. destruct (trimStart_suffix s) as [pre Hpre].
  destruct (trimEnd_prefix (trimStart s)) as [post Hpost].
  exists pre, post. now rewrite <- Hpost.
Qed.

Lemma slice_piece s i e : exists pre post, s = pre ++ slice s i e ++ post.
Proof.
  unfold slice. exists (take (Z.to_nat i) s), (drop (Z.to_nat (e - i)) (drop (Z.to_nat i) s)).
  now rewrite !take_drop.
Qed.

End TrimFacts.

Section ChunkerMore.
Import Js Chunker.

Lemma chunkLoop_length text maxChars overlap : forall fuel i chunks,
  (length (chunkLoop text maxChars overlap fuel i chunks) <= length chunks + fuel)%nat.
Proof.
  induction fuel as [|fuel IH]; intros i chunks; simpl; [lia|].
  destruct (i <? Z.of_nat (length text)); [|lia].
  destruct (100 <? _)%nat.
  - etransitivity; [apply IH|]. rewrite length_app. simpl. lia.
  - etransitivity; [apply IH|]. lia.
Qed.

(** X1.  Whatever the text and the parameters, [chunkText] returns at most
    [maxChunks = 30] chunks. *)
Theorem chunkText_at_most_maxChunks (text : jsstring) (maxChars overlap : Z) :
  (length (chunkText text maxChars overlap) <= 30)%nat.
Proof.
  unfold chunkText.
  etransitivity; [apply List.filter_length_le|].
  etransitivity; [apply chunkLoop_length|]. reflexivity.
Qed.

Lemma chunkLoop_pieces text maxChars overlap : forall fuel i chunks c,
  In c (chunkLoop text maxChars overlap fuel i chunks) ->
  In c chunks \/ exists i' e', c = trim (slice text i' e').
Proof.
  induction fuel as [|fuel IH]; intros i chunks c Hin; simpl in Hin; [now left|].
  destruct (i <? Z.of_nat (length text)); [|now left].
  apply IH in Hin. destruct Hin as [Hin|Hin]; [|now right].
  destruct (100 <? _)%nat; [|now left].
  apply in_app_or in Hin. destruct Hin as [Hin|[<-|[]]]; [now left|].
  right. eauto.
Qed.

(** X2.  Whatever the parameters, every chunk is a contiguous piece of the
    text, is not empty, and neither begins nor ends with white space. *)
Theorem chunk_is_trimmed_piece (text : jsstring) (maxChars overlap : Z) (c : jsstring) :
  In c (chunkText text maxChars overlap) ->
  (exists pre post, text = pre ++ c ++ post)
  /\ c <> []
  /\ (forall ch, head c = Some ch -> is_white ch = false)
  /\ (forall ch, last c = Some ch -> is_white ch = false).
Proof.
  unfold chunkText. intros Hin. apply List.filter_In in Hin as [Hin Hne].
  apply chunkLoop_pieces in Hin as [[]|(i & e & ->)].
  split; [|split; [|split]].
  - destruct (slice_piece text i e) as (p1 & q1 & H1).
    destruct (trim_piece (slice text i e)) as (p2 & q2 & H2).
    exists (p1 ++ p2), (q2 ++ q1). rewrite H1 at 1. rewrite H2 at 1.
    now rewrite <- !app_assoc.
  - intros Hnil. rewrite Hnil in Hne. discriminate.
  - apply trim_head.
  - apply trim_last.
Qed.

Lemma chunk_is_trimmed_piece_witness :
  exists pre post, Scenario.period_at_1500 = pre ++ (repeat 97%N 1500 ++ [ch_period]) ++ post.
Proof.
  refine (proj1 (chunk_is_trimmed_piece Scenario.period_at_1500 1500 150 _ _)).
  vm_compute. left. reflexivity.
Defined.

Lemma chunkArray_go_nil {A} fuel (arr : list A) size :
  (length arr <= fuel)%nat -> chunkArray_go fuel arr size = [] -> arr = [].
Proof.
  destruct fuel, arr; simpl; try discriminate; try reflexivity. lia.
Qed.

Lemma chunkArray_go_spec {A} (size : nat) (Hsize : (0 < size)%nat) :
  forall fuel (arr : list A),
    (length arr <= fuel)%nat ->
    let groups := chunkArray_go fuel arr size in
    concat groups = arr
    /\ Forall (fun g => (0 < length g <= size)%nat) groups
    /\ (forall i g, groups !! i = Some g -> (S i < length groups)%nat -> length g = size).
Proof.
  induction fuel as [|fuel IH]; intros arr Hlen; cbv zeta.
  - destruct arr; [|simpl in Hlen; lia]. simpl.
    split; [reflexivity|]. split; [constructor|]. intros i g H. discriminate.
  - destruct arr as [|x arr]; cbn [chunkArray_go].
    { split; [reflexivity|]. split; [constructor|]. intros i g H. discriminate. }
    set (l := x :: arr) in *.
    assert (Hrest : (length (drop size l) <= fuel)%nat).
    { rewrite length_drop. subst l. simpl in *. lia. }
    destruct (IH (drop size l) Hrest) as (Hc & Hf & Hfull).
    split; [cbn [concat]; now rewrite Hc, take_drop|].
    split.
    + constructor; [|exact Hf]. rewrite length_take. subst l. simpl. lia.
    + intros [|i] g Hg Hi; cbn in Hg.
      * injection Hg as <-. rewrite length_take.
        assert (Hnn : drop size l <> []).
        { intros Hnil. cbn [length] in Hi.
          destruct (chunkArray_go fuel (drop size l) size) eqn:Hgo; [simpl in Hi; lia|].
          rewrite Hnil in Hgo. destruct fuel; discriminate. }
        assert (length (drop size l) <> 0%nat)
          by (destruct (drop size l); [congruence|discriminate]).
        rewrite length_drop in H. lia.
      * apply (Hfull i g Hg). cbn [length] in Hi. lia.
Qed.

(** X3.  For a positive group size, [chunkArray] cuts the array into
    consecutive groups: put back together they give the array, no group is
    empty or longer than [size], and every group but the last has exactly
    [size] elements. *)
Theorem chunkArray_partition {A} (arr : list A) (size : nat) :
  (0 < size)%nat ->
  concat (chunkArray arr size) = arr
  /\ Forall (fun g => (0 < length g <= size)%nat) (chunkArray arr size)
  /\ (forall i g, chunkArray arr size !! i = Some g ->
                  (S i < length (chunkArray arr size))%nat -> length g = size).
Proof.
  intros Hsize. unfold chunkArray.
  exact (chunkArray_go_spec size Hsize (length arr) arr (le_n _)).
Qed.

Lemma chunkArray_partition_witness :
  concat (chunkArray [1; 2; 3; 4; 5; 6; 7; 8; 9] 4) = [1; 2; 3; 4; 5; 6; 7; 8; 9].
Proof.
  refine (proj1 (chunkArray_partition [1; 2; 3; 4; 5; 6; 7; 8; 9] 4 _)). lia.
Defined.

End ChunkerMore.

(* ===================================================================== *)
(** * More about the retry wrapper                                       *)
(* ===================================================================== *)

Section RetryMore.
Import Js Retry.
Context {A : Type}.
Variable classifier : jserror -> verdict.
Variable fn : nat -> result A.
Variable maxRetries : nat.
Variable baseDelay : Z.

Local Abbreviation backoff := (fun j : nat => baseDelay * 2 ^ Z.of_nat j).
Local Abbreviation loop := (retry_loop classifier fn maxRetries baseDelay).

(** The loop entered at attempt [i] ends at some attempt [k]: the attempts
    in between failed with errors taken for transient, each followed by its
    delay, and attempt [k] decides how the call ends. *)
Lemma retry_loop_decided : forall fuel i slept,
  (fuel + i = maxRetries)%nat -> (0 < fuel)%nat ->
  exists k,
    (i <= k < maxRetries)%nat
    /\ (forall j, (i <= j < k)%nat -> exists e, fn j = Throw e /\ classifier e = Transient)
    /\ invocations (loop fuel i slept) = S k
    /\ delays (loop fuel i slept) = slept ++ map backoff (seq i (k - i))
    /\ match fn k with
       | Ok v => ended (loop fuel i slept) = Returned v
       | Throw e =>
           ended (loop fuel i slept) = Thrown e
           \/ ((S k < maxRetries)%nat
               /\ exists e', classifier e = ClassifierThrows e'
                             /\ ended (loop fuel i slept) = Thrown e')
       end.
Proof.
  induction fuel as [|fuel IH]; intros i slept Hsum Hpos; [lia|].
  cbn [retry_loop].
  assert (Hstop : forall r, loop (S fuel) i slept = r ->
            invocations r = S i -> delays r = slept ->
            match fn i with
            | Ok v => ended r = Returned v
            | Throw e =>
                ended r = Thrown e
                \/ ((S i < maxRetries)%nat
                    /\ exists e', classifier e = ClassifierThrows e' /\ ended r = Thrown e')
            end ->
            exists k,
              (i <= k < maxRetries)%nat
              /\ (forall j, (i <= j < k)%nat ->
                            exists e, fn j = Throw e /\ classifier e = Transient)
              /\ invocations r = S k
              /\ delays r = slept ++ map backoff (seq i (k - i))
              /\ match fn k with
                 | Ok v => ended r = Returned v
                 | Throw e =>
                     ended r = Thrown e
                     \/ ((S k < maxRetries)%nat
                         /\ exists e', classifier e = ClassifierThrows e'
                                       /\ ended r = Thrown e')
                 end).
  { intros r _ Hi Hd Hm. exists i. split; [lia|]. split; [intros j Hj; lia|].
    split; [exact Hi|]. split; [|exact Hm].
    rewrite Nat.sub_diag. simpl. now rewrite app_nil_r. }
  cbn [retry_loop] in Hstop.
  destruct (fn i) as [v|e] eqn:Hfn.
  { apply (Hstop _ eq_refl); reflexivity. }
  destruct (Z.eqb_spec (Z.of_nat i) (Z.of_nat maxRetries - 1)) as [Hlast|Hnot].
  { apply (Hstop _ eq_refl); try reflexivity. now left. }
  destruct (classifier e) eqn:Hcl.
  - clear Hstop.
    destruct (IH (S i) (slept ++ [backoff i])) as (k & Hk & Hbefore & Hinv & Hdel & Hend);
      [lia|lia|].
    exists k. split; [lia|]. split.
    { intros j Hj. destruct (decide (j = i)) as [->|Hne]; [eauto|].
      apply Hbefore. lia. }
    split; [exact Hinv|]. split; [|exact Hend].
    rewrite Hdel, <- app_assoc. f_equal.
    replace (k - i)%nat with (S (k - S i)) by lia. reflexivity.
  - apply (Hstop _ eq_refl); try reflexivity. now left.
  - apply (Hstop _ eq_refl); try reflexivity. right. split; [lia|]. eauto.
Qed.

(** X4.  With [maxRetries > 0] the wrapper invokes the operation at least
    once and at most [maxRetries] times, never ends with [undefined], and
    has slept [baseDelay * 2^j] after failed attempt [j] for every attempt
    but the last; each of those attempts failed with an error that the
    classifier takes for transient. *)
Theorem retry_bounded_backoff :
  (0 < maxRetries)%nat ->
  let r := retryWithBackoff classifier fn maxRetries baseDelay in
  (1 <= invocations r <= maxRetries)%nat
  /\ delays r = map (fun j : nat => baseDelay * 2 ^ Z.of_nat j)
                    (seq 0 (invocations r - 1))
  /\ ended r <> ReturnedUndefined
  /\ forall j, (j < invocations r - 1)%nat ->
               exists e, fn j = Throw e /\ classifier e = Transient.
Proof.
  intros Hpos r. subst r. unfold retryWithBackoff.
  destruct (retry_loop_decided maxRetries 0%nat [] ltac:(lia) Hpos)
    as (k & Hk & Hbefore & Hinv & Hdel & Hend).
  rewrite Hinv, Hdel. replace (S k - 1)%nat with k by lia.
  rewrite Nat.sub_0_r. split; [lia|]. split; [reflexivity|]. split.
  - destruct (fn k) as [v|e]; [rewrite Hend; discriminate|].
    destruct Hend as [->|(_ & e' & _ & ->)]; discriminate.
  - intros j Hj. apply Hbefore. lia.
Qed.

(** While every attempt fails with a transient error and is not the last
    one, the loop goes on to the next. *)
Lemma retry_loop_skips : forall n fuel i slept,
  (forall j, (i <= j < i + n)%nat ->
             exists e, fn j = Throw e /\ classifier e = Transient) ->
  (i + n < maxRetries)%nat ->
  loop (n + fuel) i slept = loop fuel (i + n) (slept ++ map backoff (seq i n)).
Proof.
  induction n as [|n IH]; intros fuel i slept Hfail Hlt.
  - simpl. now rewrite Nat.add_0_r, app_nil_r.
  - cbn [Nat.add retry_loop].
    destruct (Hfail i ltac:(lia)) as (e & -> & ->).
    destruct (Z.eqb_spec (Z.of_nat i) (Z.of_nat maxRetries - 1)); [lia|].
    rewrite IH; [|intros j Hj; apply Hfail; lia|lia].
    replace (S i + n)%nat with (i + S n)%nat by lia.
    now rewrite <- app_assoc.
Qed.

(** X5.  If the first [k] attempts fail with transient errors and attempt
    [k < maxRetries] succeeds, the wrapper returns that value after exactly
    [k + 1] invocations and the delays [baseDelay * 2^0 .. 2^(k-1)]. *)
Theorem retry_returns_first_success (k : nat) (v : A) :
  (k < maxRetries)%nat ->
  (forall j, (j < k)%nat -> exists e, fn j = Throw e /\ classifier e = Transient) ->
  fn k = Ok v ->
  retryWithBackoff classifier fn maxRetries baseDelay
  = {| ended := Returned v; invocations := S k;
       delays := map (fun j : nat => baseDelay * 2 ^ Z.of_nat j) (seq 0 k) |}.
Proof.
  intros Hk Hfail Hok. unfold retryWithBackoff.
  replace maxRetries with (k + S (maxRetries - S k))%nat at 2 by lia.
  rewrite retry_loop_skips; [|intros j Hj; apply Hfail; lia|lia].
  cbn [retry_loop Nat.add app]. now rewrite Hok.
Qed.

(** X6.  If all [maxRetries] attempts fail, the first [maxRetries - 1] of
    them with transient errors, the wrapper rethrows the error of the last
    attempt, whatever its kind, after exactly [maxRetries] invocations; it
    does not sleep after the last attempt. *)
Theorem retry_exhausted_rethrows_last (n : nat) (e : jserror) :
  maxRetries = S n ->
  (forall j, (j < n)%nat -> exists e', fn j = Throw e' /\ classifier e' = Transient) ->
  fn n = Throw e ->
  retryWithBackoff classifier fn maxRetries baseDelay
  = {| ended := Thrown e; invocations := maxRetries;
       delays := map (fun j : nat => baseDelay * 2 ^ Z.of_nat j) (seq 0 n) |}.
Proof.
  intros Hmax Hfail Hlast. unfold retryWithBackoff.
  replace maxRetries with (n + 1)%nat at 2 by lia.
  rewrite retry_loop_skips; [|intros j Hj; apply Hfail; lia|lia].
  cbn [retry_loop Nat.add app]. rewrite Hlast.
  destruct (Z.eqb_spec (Z.of_nat n) (Z.of_nat maxRetries - 1)); [|lia].
  now rewrite Hmax.
Qed.

End RetryMore.

Section RetryMoreWitness.
Import Js Retry Scenario.

Lemma retry_bounded_backoff_witness :
  (1 <= invocations (retryWithBackoff classify flaky_twice 3 1000) <= 3)%nat.
Proof. apply (retry_bounded_backoff classify flaky_twice 3 1000). lia. Defined.

Lemma retry_returns_first_success_witness :
  retryWithBackoff classify flaky_twice 5 1000
  = {| ended := Returned "answer"; invocations := 3; delays := [1000; 2000] |}.
Proof.
  apply (retry_returns_first_success classify flaky_twice 5 1000 2 "answer");
    [lia| |reflexivity].
  intros [|[|j]] Hj; [exists overloaded_503|exists quota_exceeded|lia]; split; reflexivity.
Defined.

Lemma retry_exhausted_rethrows_last_witness :
  retryWithBackoff classify (fun _ => Throw overloaded_503 : result string) 3 1000
  = {| ended := Thrown overloaded_503; invocations := 3; delays := [1000; 2000] |}.
Proof.
  apply (retry_exhausted_rethrows_last classify _ 3 1000 2 overloaded_503);
    [reflexivity| |reflexivity].
  intros j _. exists overloaded_503. split; reflexivity.
Defined.

End RetryMoreWitness.

Section ClassifierFacts.
Import Js Retry.

Lemma prefix_string_map f n : forall s,
  String.prefix n s = true -> String.prefix (string_map f n) (string_map f s) = true.
Proof.
  induction n as [|a n IH]; intros s; [intros _; now destruct s|].
  destruct s as [|b s]; simpl; [discriminate|].
  destruct (Ascii.ascii_dec a b) as [->|]; [|discriminate].
  intros H. destruct (Ascii.ascii_dec (f b) (f b)); [now apply IH|congruence].
Qed.

Lemma includes_string_map f n : forall s,
  includes s n = true -> includes (string_map f s) (string_map f n) = true.
Proof.
  induction s as [|c s IH]; cbn [includes string_map]; intros H.
  - apply orb_true_iff in H as [H|H]; [|discriminate].
    apply (prefix_string_map f) in H. cbn [string_map] in H. now rewrite H.
  - apply orb_true_iff in H as [H|H].
    + apply (prefix_string_map f) in H. cbn [string_map] in H. now rewrite H.
    + rewrite (IH H). apply orb_true_r.
Qed.

Lemma prefix_append_l a b : forall s,
  String.prefix (a +:+ b) s = true -> String.prefix a s = true.
Proof.
  induction a as [|x a IH]; intros s; [now destruct s|].
  destruct s as [|y s]; simpl; [discriminate|].
  destruct (Ascii.ascii_dec x y); [apply IH|discriminate].
Qed.

Lemma includes_append_l a b : forall s,
  includes s (a +:+ b) = true -> includes s a = true.
Proof.
  induction s as [|c s IH]; cbn [includes]; intros H.
  - apply orb_true_iff in H as [H|H]; [|discriminate].
    now rewrite (prefix_append_l a b _ H).
  - apply orb_true_iff in H as [H|H].
    + now rewrite (prefix_append_l a b _ H).
    + rewrite (IH H). apply orb_true_r.
Qed.

Lemma classify_legacy_cases e :
  classify_legacy e = Transient ->
  err_status e = Some 503
  \/ exists m, err_message e = Some m /\ includes m "overloaded" = true.
Proof.
  unfold classify_legacy.
  destruct (decide (err_status e = Some 503)) as [Heq|Hne]; [now left|].
  intros H. right.
  assert (Hmsg : match err_message e with
                 | Some m => if includes m "overloaded" then Transient else Permanent
                 | None => ClassifierThrows TypeError
                 end = Transient).
  { destruct (err_status e) as [st|]; [|exact H].
    destruct st as [|p|p]; try exact H.
    repeat (destruct p as [p|p|]; try exact H).
    congruence. }
  destruct (err_message e) as [m|]; [|discriminate].
  exists m. split; [reflexivity|].
  destruct (includes m "overloaded"); [reflexivity|discriminate].
Qed.

(** X7.  Every error that the older classifier (status 503, or a message
    containing [overloaded]) takes for transient is transient for the
    classifier of gemini.js as well. *)
Theorem legacy_transient_is_transient (e : jserror) :
  classify_legacy e = Transient -> classify e = Transient.
Proof.
  intros H. unfold classify.
  destruct (classify_legacy_cases e H) as [Hst|(m & Hm & Hinc)].
  - unfold error_status. now rewrite Hst.
  - unfold error_msg. rewrite Hm. cbn [default from_option id].
    assert (Hlow : includes (toLowerCase m) "overload" = true).
    { apply (includes_append_l "overload" "ed").
      exact (includes_string_map lower_ascii "overloaded" m Hinc). }
    unfold transient_pattern. rewrite Hlow. now rewrite orb_true_r.
Qed.

Lemma legacy_transient_is_transient_witness :
  classify Scenario.overloaded_503 = Transient.
Proof. apply legacy_transient_is_transient. reflexivity. Defined.

End ClassifierFacts.

(* ===================================================================== *)
(** * More about the prompt and the generation call                      *)
(* ===================================================================== *)

Section PromptMore.
Import Js Retry Prompt.
Variable classifier : jserror -> verdict.
Variable generateContent : string -> nat -> result GenResponse.

Local Abbreviation answer := (answerWithContext classifier generateContent).

Lemma slice_last_app {A} n (older recent : list A) :
  (n <= length recent)%nat -> slice_last n (older ++ recent) = slice_last n recent.
Proof.
  intros Hn. unfold slice_last. rewrite length_app.
  replace (length older + length recent - n)%nat
    with (length older + (length recent - n))%nat by lia.
  now rewrite drop_app_add.
Qed.

(** X8.  Only the last six turns of the history reach the prompt: with six
    or more recent turns, whatever comes before them (malformed turns
    included) changes nothing in what [answerWithContext] does. *)
Theorem answerWithContext_reads_last_six
        (message : string) (docs : list ContextDoc) (older recent : list jsobj) :
  (6 <= length recent)%nat ->
  answer message docs (older ++ recent) = answer message docs recent.
Proof.
  intros Hlen. unfold answerWithContext, histText.
  now rewrite (slice_last_app 6 older recent Hlen).
Qed.

Lemma histLines_missing_role l o :
  o ∈ l -> (forall r, o !! "role" <> Some (JStr r)) -> histLines l = Throw TypeError.
Proof.
  intros Hin Hrole. induction l as [|m l IH]; [inversion Hin|].
  cbn [histLines].
  assert (Hthrows : forall m', histLine m' = Throw TypeError \/ exists ln, histLine m' = Ok ln).
  { intros m'. unfold histLine. destruct (m' !! "role") as [[r|n]|]; eauto. }
  apply elem_of_cons in Hin as [<-|Hin].
  - unfold histLine. destruct (o !! "role") as [[r|n]|] eqn:Hr; try reflexivity.
    now destruct (Hrole r).
  - destruct (Hthrows m) as [->|[ln ->]]; [reflexivity|].
    now rewrite (IH Hin).
Qed.

(** X9.  If one of the last six turns has no string [role], building the
    prompt throws a [TypeError]: [answerWithContext] fails whatever the
    model would have answered. *)
Theorem answerWithContext_requires_roles
        (message : string) (docs : list ContextDoc) (history : list jsobj) (o : jsobj) :
  o ∈ slice_last 6 history ->
  (forall r, o !! "role" <> Some (JStr r)) ->
  answer message docs history = Throw TypeError.
Proof.
  intros Hin Hrole. unfold answerWithContext, histText.
  now rewrite (histLines_missing_role _ o Hin Hrole).
Qed.

(** X10.  When the history can be formatted, the model is called on one
    prompt at most three times: the calls before call [k] failed with
    transient errors, and call [k] decides the outcome, its text on success
    and its error (or the classifier's) on failure.  The wrapper's
    [undefined] result never reaches [resp.response]. *)
Theorem answerWithContext_decided_within_three_calls
        (message : string) (docs : list ContextDoc) (history : list jsobj) (hist : string) :
  histText history = Ok hist ->
  let prompt := buildPrompt message (ctxBlocks docs) hist in
  exists k,
    (k < 3)%nat
    /\ (forall j, (j < k)%nat ->
                  exists e, generateContent prompt j = Throw e /\ classifier e = Transient)
    /\ match generateContent prompt k with
       | Ok resp => answer message docs history = response_text resp
       | Throw e =>
           answer message docs history = Throw e
           \/ exists e', classifier e = ClassifierThrows e'
                         /\ answer message docs history = Throw e'
       end.
Proof.
  intros Hhist prompt. unfold answerWithContext. rewrite Hhist. fold prompt.
  unfold retryWithBackoff, default_maxRetries.
  destruct (retry_loop_decided classifier (generateContent prompt) 3 default_baseDelay
              3 0%nat [] eq_refl ltac:(lia)) as (k & Hk & Hbefore & _ & _ & Hend).
  exists k. split; [lia|]. split; [intros j Hj; apply Hbefore; lia|].
  destruct (generateContent prompt k) as [resp|e].
  - now rewrite Hend.
  - destruct Hend as [->|(_ & e' & Hcl & ->)]; [now left|right; eauto].
Qed.

End PromptMore.

Section PromptMoreWitness.
Import Js Retry Prompt SessionStore Scenario.

Lemma answerWithContext_reads_last_six_witness :
  answerWithContext classify generate_ok "hi" []
    ([(∅ : jsobj)] ++ repeat (stored (turn "m" "user") 1) 6)
  = answerWithContext classify generate_ok "hi" [] (repeat (stored (turn "m" "user") 1) 6).
Proof. apply answerWithContext_reads_last_six. vm_compute. lia. Defined.

Lemma answerWithContext_requires_roles_witness :
  answerWithContext classify generate_ok "hi" [] [(∅ : jsobj)] = Throw TypeError.
Proof.
  apply (answerWithContext_requires_roles classify generate_ok "hi" [] [∅] ∅).
  - left.
  - intros r. rewrite lookup_empty. discriminate.
Defined.

Lemma answerWithContext_decided_within_three_calls_witness :
  exists k, (k < 3)%nat
    /\ answerWithContext classify generate_ok "hi" [] [stored (turn "m" "user") 1]
       = Ok "reply".
Proof.
  destruct (answerWithContext_decided_within_three_calls classify generate_ok "hi" []
              [stored (turn "m" "user") 1] "USER: undefined" eq_refl)
    as (k & Hk & _ & Hend).
  exists k. split; [exact Hk|]. exact Hend.
Defined.

End PromptMoreWitness.

(* ===================================================================== *)
(** * More about the session store                                       *)
(* ===================================================================== *)

Section StoreMore.
Import Js SessionStore Server.

Ltac store_run :=
  cbv beta iota zeta delta
    [appendMessage getHistory resetSession getClient rPush expire lRange_all
     del touchMem round_trip bind ret get modify throw
     has_redis client_open faults redis_db redis_ttl mem timers
     set_client_open set_faults set_redis_db set_redis_ttl set_mem set_timers
     JSON_stringify JSON_parse_or_null fst snd].
Ltac store_run_in H :=
  cbv beta iota zeta delta
    [appendMessage getHistory resetSession getClient rPush expire lRange_all
     del touchMem round_trip bind ret get modify throw
     has_redis client_open faults redis_db redis_ttl mem timers
     set_client_open set_faults set_redis_db set_redis_ttl set_mem set_timers
     JSON_stringify JSON_parse_or_null fst snd] in H.

Lemma KEY_inj sid sid' : KEY sid = KEY sid' -> sid = sid'.
Proof. unfold KEY. cbn. intros H. now injection H. Qed.

(** ** What each operation leaves of the store *)

Lemma appendMessage_shape sid msg now s :
  let k := KEY sid in
  let s' := snd (appendMessage sid msg now s) in
  has_redis s' = has_redis s
  /\ if has_redis s then
       mem s' = mem s /\ timers s' = timers s
       /\ ((redis_db s' = redis_db s /\ redis_ttl s' = redis_ttl s)
           \/ (redis_db s' = <[k := default [] (redis_db s !! k)
                                     ++ [Serialized (stored msg now)]]> (redis_db s)
               /\ (redis_ttl s' = redis_ttl s
                   \/ redis_ttl s' = <[k := TTL_SECONDS]> (redis_ttl s))))
     else
       redis_db s' = redis_db s /\ redis_ttl s' = redis_ttl s
       /\ mem s' = <[k := default [] (mem s !! k) ++ [stored msg now]]> (mem s)
       /\ timers s' = <[k := TTL_SECONDS * 1000]> (delete k (timers s)).
Proof.
  destruct s as [hr co fl db ttl m tm]. destruct hr.
  - destruct co, fl as [|[|] [|[|] [|[|] fl]]]; store_run.
    all: try rewrite lookup_insert_eq.
    all: split; [reflexivity|]; split; [reflexivity|]; split; [reflexivity|].
    all: try (left; split; reflexivity).
    all: right; split; [reflexivity|]; (left; reflexivity) || (right; reflexivity).
  - store_run. repeat split.
Qed.

Lemma resetSession_shape sid s :
  let k := KEY sid in
  let s' := snd (resetSession sid s) in
  has_redis s' = has_redis s
  /\ if has_redis s then
       mem s' = mem s /\ timers s' = timers s
       /\ ((redis_db s' = redis_db s /\ redis_ttl s' = redis_ttl s)
           \/ (redis_db s' = delete k (redis_db s) /\ redis_ttl s' = delete k (redis_ttl s)))
     else
       redis_db s' = redis_db s /\ redis_ttl s' = redis_ttl s
       /\ mem s' = delete k (mem s) /\ timers s' = delete k (timers s).
Proof.
  destruct s as [hr co fl db ttl m tm]. destruct hr.
  - destruct co, fl as [|[|] [|[|] fl]]; store_run.
    all: split; [reflexivity|]; split; [reflexivity|]; split; [reflexivity|].
    all: (left; split; reflexivity) || (right; split; reflexivity).
  - store_run. repeat split.
Qed.

Lemma getHistory_shape sid s :
  let s' := snd (getHistory sid s) in
  has_redis s' = has_redis s /\ redis_db s' = redis_db s /\ redis_ttl s' = redis_ttl s
  /\ mem s' = mem s /\ timers s' = timers s.
Proof.
  destruct s as [hr co fl db ttl m tm]. destruct hr.
  - destruct co, fl as [|[|] [|[|] fl]]; store_run; repeat split.
  - store_run. repeat split.
Qed.

Lemma session_log_same sid s s' :
  has_redis s' = has_redis s -> redis_db s' = redis_db s -> mem s' = mem s ->
  session_log sid s' = session_log sid s.
Proof. unfold session_log. now intros -> -> ->. Qed.

Lemma resetSession_quiet sid s :
  quiet s ->
  exists s', resetSession sid s = (Ok tt, s') /\ quiet s' /\ session_log sid s' = [].
Proof.
  intros Hq. destruct s as [hr co fl db ttl m tm]. destruct hr.
  - destruct Hq as [Hq|Hq]; cbn in Hq; [discriminate|]. subst fl.
    destruct co; store_run;
      (eexists; split; [reflexivity|]; split; [right; reflexivity|]);
      unfold session_log; cbn; now rewrite lookup_delete_eq.
  - store_run. eexists. split; [reflexivity|]. split; [left; reflexivity|].
    unfold session_log. cbn. now rewrite lookup_delete_eq.
Qed.

(** X11.  With no Redis fault pending, [resetSession] succeeds, the
    session's history is then empty, and turns appended afterwards start a
    new log: the history holds exactly them, whatever the session held
    before the reset. *)
Theorem reset_starts_fresh_log (sid : string) (turns : list (jsobj * Z)) (s : store) :
  quiet s ->
  exists s1 s2 s3 s4,
    resetSession sid s = (Ok tt, s1)
    /\ getHistory sid s1 = (Ok [], s2)
    /\ appendAll sid turns s2 = (Ok tt, s3)
    /\ getHistory sid s3 = (Ok (map (fun t => stored (fst t) (snd t)) turns), s4).
Proof.
  intros Hq.
  destruct (resetSession_quiet sid s Hq) as (s1 & Hr & Hq1 & Hl1).
  destruct (getHistory_quiet sid s1 Hq1) as (s2 & Hh2 & Hq2).
  destruct (getHistory_cases _ _ _ _ Hh2) as (_ & Hsame & _).
  destruct (appendAll_quiet sid turns s2 Hq2) as (s3 & Ha & Hq3 & Hl3).
  destruct (getHistory_quiet sid s3 Hq3) as (s4 & Hh4 & _).
  exists s1, s2, s3, s4. split; [exact Hr|]. split; [now rewrite Hh2, Hl1|].
  split; [exact Ha|]. now rewrite Hh4, Hl3, Hsame, Hl1.
Qed.

(** X12.  With no Redis fault pending, resetting a session twice leaves the
    store exactly as resetting it once. *)
Theorem resetSession_idempotent (sid : string) (s : store) :
  quiet s ->
  snd (resetSession sid (snd (resetSession sid s))) = snd (resetSession sid s).
Proof.
  intros Hq. destruct s as [hr co fl db ttl m tm]. destruct hr.
  - destruct Hq as [Hq|Hq]; cbn in Hq; [discriminate|]. subst fl.
    destruct co; store_run; now rewrite !delete_delete_eq.
  - store_run. now rewrite !delete_delete_eq.
Qed.

Lemma appendMessage_other_session sid sid' msg now s :
  sid' <> sid ->
  session_log sid' (snd (appendMessage sid msg now s)) = session_log sid' s.
Proof.
  intros Hne.
  assert (Hk : KEY sid <> KEY sid') by (intros H; apply KEY_inj in H; congruence).
  destruct (appendMessage_shape sid msg now s) as [Hr Hs]. cbv zeta in *.
  unfold session_log. rewrite Hr. destruct (has_redis s).
  - destruct Hs as (_ & _ & [[-> _]|[-> _]]); [reflexivity|].
    now rewrite lookup_insert_ne.
  - destruct Hs as (_ & _ & -> & _). now rewrite lookup_insert_ne.
Qed.

Lemma resetSession_other_session sid sid' s :
  sid' <> sid ->
  session_log sid' (snd (resetSession sid s)) = session_log sid' s.
Proof.
  intros Hne.
  assert (Hk : KEY sid <> KEY sid') by (intros H; apply KEY_inj in H; congruence).
  destruct (resetSession_shape sid s) as [Hr Hs]. cbv zeta in *.
  unfold session_log. rewrite Hr. destruct (has_redis s).
  - destruct Hs as (_ & _ & [[-> _]|[-> _]]); [reflexivity|].
    now rewrite lookup_delete_ne.
  - destruct Hs as (_ & _ & -> & _). now rewrite lookup_delete_ne.
Qed.

Lemma getHistory_log_same sid sid' s :
  session_log sid' (snd (getHistory sid s)) = session_log sid' s.
Proof.
  destruct (getHistory_shape sid s) as (Hr & Hdb & _ & Hm & _).
  now apply session_log_same.
Qed.

Lemma appendMessage_log_grows sid msg now s :
  session_log sid s `prefix_of` session_log sid (snd (appendMessage sid msg now s)).
Proof.
  destruct (appendMessage sid msg now s) as [r s'] eqn:He. cbn [snd].
  destruct (appendMessage_cases _ _ _ _ _ _ He) as [_ [[_ ->]|(e & _ & _ & [->| ->])]];
    try reflexivity; now apply prefix_app_r.
Qed.

(** X13.  Whatever its outcome, an append or a reset of one session leaves
    the log of every other session as it was. *)
Theorem other_sessions_untouched (sid sid' : string) (msg : jsobj) (now : Z) (s : store) :
  sid' <> sid ->
  session_log sid' (snd (appendMessage sid msg now s)) = session_log sid' s
  /\ session_log sid' (snd (resetSession sid s)) = session_log sid' s.
Proof.
  intros Hne. split;
    [now apply appendMessage_other_session|now apply resetSession_other_session].
Qed.


End StoreMore.

Section StoreMoreWitness.
Import Js SessionStore Server Scenario.

Lemma reset_starts_fresh_log_witness :
  exists s1 s2 s3 s4,
    resetSession "s1" (snd (chat "s1" "hi" 1000 1001 fresh_memory_store)) = (Ok tt, s1)
    /\ getHistory "s1" s1 = (Ok [], s2)
    /\ appendAll "s1" scenarioD s2 = (Ok tt, s3)
    /\ getHistory "s1" s3
       = (Ok (map (fun t => stored (fst t) (snd t)) scenarioD), s4).
Proof. apply reset_starts_fresh_log. left. reflexivity. Defined.

Lemma resetSession_idempotent_witness :
  snd (resetSession "s1" (snd (resetSession "s1" (fresh_redis_store []))))
  = snd (resetSession "s1" (fresh_redis_store [])).
Proof. apply resetSession_idempotent. right. reflexivity. Defined.

Lemma other_sessions_untouched_witness :
  session_log "s2" (snd (appendMessage "s1" (turn "hi" "user") 1 fresh_memory_store))
  = session_log "s2" fresh_memory_store.
Proof.
  refine (proj1 (other_sessions_untouched "s1" "s2" _ _ _ _)). discriminate.
Defined.


End StoreMoreWitness.

Section BackendInvariant.
Import Js SessionStore Server.

(** The two backends are never mixed, no session lives without a timer nor
    a timer without a session (in memory), and no expiry without a key
    (Redis). *)
Local Abbreviation backend_inv := (fun s : store =>
  (has_redis s = false ->
     redis_db s = ∅ /\ redis_ttl s = ∅
     /\ forall k, is_Some (mem s !! k) <-> is_Some (timers s !! k))
  /\ (has_redis s = true ->
        mem s = ∅ /\ timers s = ∅
        /\ forall k, is_Some (redis_ttl s !! k) -> is_Some (redis_db s !! k))).

Lemma appendMessage_backend_inv sid msg now s :
  backend_inv s -> backend_inv (snd (appendMessage sid msg now s)).
Proof.
  intros [Hmem Hred].
  destruct (appendMessage_shape sid msg now s) as [Hr Hs]. cbv zeta in *.
  rewrite Hr. destruct (has_redis s).
  - split; [discriminate|]. intros _.
    destruct (Hred eq_refl) as (Hm & Ht & Hsub).
    destruct Hs as (-> & -> & Hcases). split; [exact Hm|]. split; [exact Ht|].
    intros k. destruct Hcases as [[-> ->]|[-> [->| ->]]].
    + apply Hsub.
    + intros Hk. rewrite lookup_insert. case_decide; [eauto|now apply Hsub].
    + rewrite !lookup_insert. case_decide; [eauto|apply Hsub].
  - split; [|discriminate]. intros _.
    destruct (Hmem eq_refl) as (Hdb & Httl & Hdom).
    destruct Hs as (-> & -> & -> & ->). split; [exact Hdb|]. split; [exact Httl|].
    intros k. rewrite !lookup_insert. case_decide as Hk.
    + split; eauto.
    + rewrite lookup_delete_ne by exact Hk. apply Hdom.
Qed.

Lemma resetSession_backend_inv sid s :
  backend_inv s -> backend_inv (snd (resetSession sid s)).
Proof.
  intros [Hmem Hred].
  destruct (resetSession_shape sid s) as [Hr Hs]. cbv zeta in *.
  rewrite Hr. destruct (has_redis s).
  - split; [discriminate|]. intros _.
    destruct (Hred eq_refl) as (Hm & Ht & Hsub).
    destruct Hs as (-> & -> & Hcases). split; [exact Hm|]. split; [exact Ht|].
    intros k. destruct Hcases as [[-> ->]|[-> ->]]; [apply Hsub|].
    rewrite !lookup_delete. case_decide; [intros [? ?]; discriminate|apply Hsub].
  - split; [|discriminate]. intros _.
    destruct (Hmem eq_refl) as (Hdb & Httl & Hdom).
    destruct Hs as (-> & -> & -> & ->). split; [exact Hdb|]. split; [exact Httl|].
    intros k. rewrite !lookup_delete. case_decide; [|apply Hdom].
    split; intros [? ?]; discriminate.
Qed.

Lemma getHistory_backend_inv sid s :
  backend_inv s -> backend_inv (snd (getHistory sid s)).
Proof.
  destruct (getHistory_shape sid s) as (Hr & Hdb & Httl & Hm & Ht). cbv zeta in *.
  now rewrite Hr, Hdb, Httl, Hm, Ht.
Qed.

Lemma handleChat_preserves (P : store -> Prop)
      (vector : Type) getEmbedding search classifier generateContent COLLECTION
      sid message now_u now_a s :
  (forall s, P s -> P (snd (getHistory sid s))) ->
  (forall msg now s, P s -> P (snd (appendMessage sid msg now s))) ->
  P s ->
  P (snd (Rag.handleChat vector getEmbedding search classifier generateContent
                         COLLECTION sid message now_u now_a s)).
Proof.
  intros Hhist Happ Hs. unfold Rag.handleChat, try_catch.
  rewrite handleChat_try_split. unfold bind, ret, throw.
  assert (H0 : P (snd (Rag.generate vector getEmbedding search classifier
                                    generateContent COLLECTION sid message s))).
  { rewrite generate_state. now apply Hhist. }
  destruct (Rag.generate _ _ _ _ _ _ sid message s) as [[[reply cits]|e0] s0];
    cbn [fst snd] in *; [|exact H0].
  pose proof (Happ (turn message "user") now_u s0 H0) as H1.
  destruct (appendMessage sid (turn message "user") now_u s0) as [[[]|e1] s1];
    cbn [fst snd] in *; [|exact H1].
  pose proof (Happ (turn reply "assistant") now_a s1 H1) as H2.
  destruct (appendMessage sid (turn reply "assistant") now_a s1) as [[[]|e2] s2];
    cbn [fst snd] in *; exact H2.
Qed.


End BackendInvariant.

Section BackendInvariantWitness.
Import Js SessionStore Server Scenario.


End BackendInvariantWitness.

(* ===================================================================== *)
(** * More about the chat orchestrator                                   *)
(* ===================================================================== *)

Section ChatMore.
Import Js Retry Prompt SessionStore Rag Server.

Variable vector : Type.
Variable getEmbedding : string -> result vector.
Variable search : string -> vector -> nat -> result (list Candidate).
Variable classifier : jserror -> verdict.
Variable generateContent : string -> nat -> result GenResponse.
Variable COLLECTION : string.

Local Abbreviation handleChat :=
  (handleChat vector getEmbedding search classifier generateContent COLLECTION).
Local Abbreviation answer := (answerWithContext classifier generateContent).

(** X16.  With no Redis fault pending, a request succeeds as soon as the
    embedding, the search and the generation do: the reply is the model's
    answer to the filtered results and the session's log, and the citations
    are the deduplicated filtered results (none when the search is empty). *)
Theorem handleChat_succeeds_with_collaborators
        (sid message : string) (now_u now_a : Z) (s : store)
        (qv : vector) (rs : list Candidate) (reply : string) :
  quiet s ->
  getEmbedding message = Ok qv ->
  search COLLECTION qv 8%nat = Ok rs ->
  answer message (map toContextDoc (retrievalFilter rs)) (session_log sid s) = Ok reply ->
  exists s', handleChat sid message now_u now_a s
             = (Ok (reply, dedupe (retrievalFilter rs)), s').
Proof.
  intros Hq He Hs Ha.
  unfold Rag.handleChat, Rag.handleChat_try, try_catch, bind, lift, ret.
  destruct (getHistory_quiet sid s Hq) as (s1 & -> & Hq1).
  rewrite He, Hs, Ha.
  destruct (appendMessage_quiet sid (turn message "user") now_u s1 Hq1)
    as (s2 & -> & Hq2 & _).
  destruct (appendMessage_quiet sid (turn reply "assistant") now_a s2 Hq2)
    as (s3 & -> & _ & _).
  eexists. reflexivity.
Qed.

(** X17.  A request that succeeded got an embedding of the message, asked
    the vector store for 8 results, and returns the model's answer to the
    filtered results and the session's log as it was before the request,
    with the deduplicated filtered results as citations. *)
Theorem handleChat_success_means
        (sid message : string) (now_u now_a : Z) (s s' : store)
        (reply : string) (cits : list Citation) :
  handleChat sid message now_u now_a s = (Ok (reply, cits), s') ->
  exists qv rs,
    getEmbedding message = Ok qv
    /\ search COLLECTION qv 8%nat = Ok rs
    /\ answer message (map toContextDoc (retrievalFilter rs)) (session_log sid s) = Ok reply
    /\ cits = dedupe (retrievalFilter rs).
Proof.
  unfold Rag.handleChat, Rag.handleChat_try, try_catch, bind, lift, ret, throw.
  destruct (getHistory sid s) as [[h|e] s1] eqn:Hh; [|discriminate].
  destruct (getHistory_cases _ _ _ _ Hh) as (_ & _ & Hlog).
  rewrite <- (Hlog h eq_refl).
  destruct (getEmbedding message) as [qv|e] eqn:Hemb; [|discriminate].
  destruct (search COLLECTION qv 8%nat) as [rs|e] eqn:Hsearch; [|discriminate].
  destruct (answer _ _ _) as [reply'|e] eqn:Ha; [|discriminate].
  destruct (appendMessage sid (turn message "user") now_u s1) as [[[]|e] s2];
    [|discriminate].
  destruct (appendMessage sid (turn reply' "assistant") now_a s2) as [[[]|e] s3];
    [|discriminate].
  intros [= <- <- <-]. exists qv, rs.
  split; [reflexivity|]. split; [exact Hsearch|]. split; [exact Ha|reflexivity].
Qed.

(** X18.  Whatever the collaborators do and however the request ends, a chat
    request only appends to its session (the log before it is a prefix of
    the log after it) and leaves the log of every other session as it was. *)
Theorem handleChat_only_appends
        (sid sid' message : string) (now_u now_a : Z) (s : store) :
  session_log sid s `prefix_of` session_log sid (snd (handleChat sid message now_u now_a s))
  /\ (sid' <> sid ->
      session_log sid' (snd (handleChat sid message now_u now_a s)) = session_log sid' s).
Proof.
  split.
  - apply (handleChat_preserves
             (fun s0 => session_log sid s `prefix_of` session_log sid s0)).
    + intros s0 H. now rewrite getHistory_log_same.
    + intros m n s0 H. etransitivity; [exact H|apply appendMessage_log_grows].
    + reflexivity.
  - intros Hne.
    apply (handleChat_preserves (fun s0 => session_log sid' s0 = session_log sid' s)).
    + intros s0 H. now rewrite getHistory_log_same.
    + intros m n s0 H. now rewrite appendMessage_other_session.
    + reflexivity.
Qed.

End ChatMore.

Section ChatMoreWitness.
Import Js Retry Prompt SessionStore Rag Server Scenario.

(** An empty search result is no error: the request succeeds without
    citations. *)
Lemma handleChat_succeeds_with_collaborators_witness :
  exists s', Rag.handleChat unit embed_ok (fun _ _ _ => Ok []) classify generate_ok "news"
                            "s1" "hi" 1000 1001 fresh_memory_store
             = (Ok ("reply", []), s').
Proof.
  apply (handleChat_succeeds_with_collaborators unit embed_ok (fun _ _ _ => Ok [])
           classify generate_ok "news" "s1" "hi" 1000 1001 fresh_memory_store tt [] "reply");
    [left|..]; reflexivity.
Defined.

Lemma handleChat_success_means_witness :
  exists qv rs,
    embed_ok "hi" = Ok qv /\ search_ok "news" qv 8%nat = Ok rs
    /\ [Rag.citationOf (cand (9 # 10) "a")] = dedupe (retrievalFilter rs).
Proof.
  destruct (handleChat_success_means unit embed_ok search_ok classify generate_ok "news"
              "s1" "hi" 1000 1001 fresh_memory_store
              (snd (chat "s1" "hi" 1000 1001 fresh_memory_store))
              "reply" [Rag.citationOf (cand (9 # 10) "a")])
    as (qv & rs & He & Hs & _ & Hc).
  - vm_compute. reflexivity.
  - exists qv, rs. repeat split; assumption.
Defined.

Lemma handleChat_only_appends_witness :
  session_log "s2" (snd (chat "s1" "hi" 1000 1001 redis_lost_at_fifth))
  = session_log "s2" redis_lost_at_fifth.
Proof.
  refine (proj2 (handleChat_only_appends unit embed_ok search_ok classify generate_ok
                   "news" "s1" "s2" "hi" 1000 1001 redis_lost_at_fifth) _).
  discriminate.
Defined.

End ChatMoreWitness.

(* ===================================================================== *)
(** * More about the retrieval filter and the citations                  *)
(* ===================================================================== *)

Section RagMore.
Import Js Rag.

Local Abbreviation passes := (fun r : Candidate => (minScore <= score r)%Qc).

Lemma filter_passes_fix (l : list Candidate) :
  Forall passes l -> filter passes l = l.
Proof.
  induction 1 as [|c l Hc _ IH]; [reflexivity|].
  rewrite filter_cons_True by exact Hc. now rewrite IH.
Qed.

Lemma filter_passes_nil (l : list Candidate) :
  Forall (fun r => ~ passes r) l -> filter passes l = [].
Proof.
  induction 1 as [|c l Hc _ IH]; [reflexivity|].
  now rewrite filter_cons_False by exact Hc.
Qed.

Lemma filter_passes_Forall (l : list Candidate) : Forall passes (filter passes l).
Proof. apply Forall_forall. intros c Hc. now apply list_elem_of_filter in Hc as [Hc _]. Qed.

Lemma filter_nil_Forall (l : list Candidate) :
  filter passes l = [] -> Forall (fun r => ~ passes r) l.
Proof.
  intros Hnil. apply Forall_forall. intros c Hin Hc.
  assert (H : c ∈ filter passes l) by (apply list_elem_of_filter; now split).
  rewrite Hnil in H. inversion H.
Qed.

(** X19.  The filter never mixes: either every candidate it returns meets
    the threshold, or no candidate of the input does and it returns at most
    three.  It returns no more than it was given, and filtering its output
    again changes nothing. *)
Theorem retrievalFilter_never_mixes (cs : list Candidate) :
  (Forall (fun r => (minScore <= score r)%Qc) (retrievalFilter cs)
   \/ (Forall (fun r => ~ (minScore <= score r)%Qc) cs
       /\ (length (retrievalFilter cs) <= 3)%nat))
  /\ (length (retrievalFilter cs) <= length cs)%nat
  /\ retrievalFilter (retrievalFilter cs) = retrievalFilter cs.
Proof.
  assert (Hcase : (filter passes cs = [] /\ retrievalFilter cs = take 3 cs)
                  \/ (filter passes cs <> [] /\ retrievalFilter cs = filter passes cs)).
  { unfold retrievalFilter, fallbackCount.
    destruct (filter passes cs); [left|right]; split; (reflexivity || discriminate). }
  destruct Hcase as [[Hf ->]|[Hf ->]].
  - pose proof (filter_nil_Forall cs Hf) as Hnone.
    split; [right; split; [exact Hnone|rewrite length_take; lia]|].
    split; [rewrite length_take; lia|].
    unfold retrievalFilter, fallbackCount.
    rewrite filter_passes_nil by (now apply Forall_take).
    cbn. apply take_idemp.
  - split; [left; apply filter_passes_Forall|].
    split; [apply length_filter|].
    unfold retrievalFilter.
    rewrite (filter_passes_fix _ (filter_passes_Forall cs)).
    destruct (filter passes cs); [congruence|reflexivity].
Qed.

Lemma map_set_absent m k v : map_get m k = None -> map_set m k v = m ++ [(k, v)].
Proof.
  induction m as [|[k0 v0] m IH]; simpl; [reflexivity|].
  case_decide; [discriminate|]. intros Hn. now rewrite IH.
Qed.

Lemma citationsMapOf_distinct (rs : list Candidate) :
  NoDup (map url rs) ->
  citationsMapOf rs = map (fun r => (url r, citationOf r)) rs.
Proof.
  induction rs as [|r0 rs IH] using rev_ind; intros Hnd; [reflexivity|].
  rewrite map_app in Hnd. apply NoDup_app in Hnd as (Hnd & Hfresh & _).
  unfold citationsMapOf in *. rewrite fold_left_app. cbn [fold_left].
  rewrite (IH Hnd), dedupe_step_cases.
  assert (Hnone : map_get (map (fun r => (url r, citationOf r)) rs) (url r0) = None).
  { apply map_get_None. rewrite map_map. cbn. intros Hin.
    apply (Hfresh _ Hin). left. }
  rewrite Hnone, (map_set_absent _ _ _ Hnone), map_app. reflexivity.
Qed.

(** X20.  When the candidates come from distinct urls, nothing is dropped:
    the citations are the candidates' citations, one each, in order. *)
Theorem dedupe_distinct_urls (rs : list Candidate) :
  NoDup (map url rs) -> dedupe rs = map citationOf rs.
Proof.
  intros Hnd. unfold dedupe, map_values.
  rewrite (citationsMapOf_distinct rs Hnd), map_map. reflexivity.
Qed.

Lemma dedupe_distinct_urls_witness :
  dedupe Scenario.scenarioC = map citationOf Scenario.scenarioC.
Proof.
  apply dedupe_distinct_urls. vm_compute.
  repeat (constructor; [intros H; repeat (apply elem_of_cons in H as [H|H];
                                           [discriminate|]); inversion H|]).
  constructor.
Defined.

End RagMore.

(* ===================================================================== *)
(** * The chat route                                                     *)
(* ===================================================================== *)

Section RouteFacts.
Import Js Retry Prompt SessionStore Rag Routes.

Variable vector : Type.
Variable getEmbedding : string -> result vector.
Variable search : string -> vector -> nat -> result (list Candidate).
Variable classifier : jserror -> verdict.
Variable generateContent : string -> nat -> result GenResponse.
Variable COLLECTION : string.
Variable uuid : string.

Local Abbreviation handleChat :=
  (handleChat vector getEmbedding search classifier generateContent COLLECTION).
Local Abbreviation chatRoute :=
  (chatRoute vector getEmbedding search classifier generateContent COLLECTION uuid).

Lemma handleChat_throws_generic sid message now_u now_a s e s' :
  handleChat sid message now_u now_a s = (Throw e, s') ->
  e = Error "Failed to process chat message".
Proof.
  unfold Rag.handleChat, try_catch, throw.
  destruct (handleChat_try _ _ _ _ _ _ sid message now_u now_a s) as [[rc|e0] s0];
    [discriminate|]. now intros [= <- _].
Qed.

(** X21.  The chat route answers 400 [message required], without touching
    the store, when the message is missing or empty.  Otherwise it runs
    [handleChat] on the caller's session id, or on a fresh one when that is
    missing or empty, and answers 200 with that id, or 500 with the text
    [Failed to process chat message], whatever the cause was. *)
Theorem chatRoute_responses (body : ChatBody) (now_u now_a : Z) (s : store) :
  let resp := fst (chatRoute body now_u now_a s) in
  let s' := snd (chatRoute body now_u now_a s) in
  let sessionId :=
    if truthy (body_sessionId body) then default "" (body_sessionId body) else uuid in
  (truthy (body_message body) = false ->
     resp = Status400 "message required" /\ s' = s)
  /\ (truthy (body_message body) = true ->
        (exists reply cits,
            resp = Status200 reply cits sessionId
            /\ handleChat sessionId (default "" (body_message body)) now_u now_a s
               = (Ok (reply, cits), s'))
        \/ (resp = Status500 "Failed to process chat message"
            /\ exists e, fst (handleChat sessionId (default "" (body_message body))
                                         now_u now_a s) = Throw e)).
Proof.
  cbv zeta. unfold Routes.chatRoute.
  destruct (truthy (body_message body)); cbn [negb].
  - split; [discriminate|]. intros _.
    destruct (handleChat _ _ now_u now_a s) as [[[reply cits]|e] s1] eqn:Hh; cbn [fst snd].
    + left. exists reply, cits. split; reflexivity.
    + right. rewrite (handleChat_throws_generic _ _ _ _ _ _ _ Hh). cbn.
      split; [reflexivity|eauto].
  - split; [|discriminate]. intros _. split; reflexivity.
Qed.

End RouteFacts.

Section RouteWitness.
Import Js Retry SessionStore Rag Routes Scenario.

Lemma chatRoute_responses_witness :
  fst (chatRoute unit embed_ok search_ok classify generate_ok "news" "fresh-id"
                 {| body_sessionId := None; body_message := Some "" |}
                 1000 1001 fresh_memory_store)
  = Status400 "message required".
Proof.
  refine (proj1 (proj1 (chatRoute_responses unit embed_ok search_ok classify generate_ok
                          "news" "fresh-id" _ 1000 1001 fresh_memory_store) _)).
  reflexivity.
Defined.

(** A request without session id is answered with the generated one. *)
Lemma chatRoute_generates_session_id :
  fst (chatRoute unit embed_ok search_ok classify generate_ok "news" "fresh-id"
                 {| body_sessionId := None; body_message := Some "hi" |}
                 1000 1001 fresh_memory_store)
  = Status200 "reply" [citationOf (cand (9 # 10) "a")] "fresh-id".
Proof. vm_compute. reflexivity. Qed.

End RouteWitness.

(* ===================================================================== *)
(** * The url list and the scraper's AMP fallback                        *)
(* ===================================================================== *)

Section UrlListFacts.
Import Js IngestIO.

Lemma set_add_elem seen x y : y ∈ set_add seen x <-> y ∈ seen \/ y = x.
Proof.
  unfold set_add. case_decide as Hx.
  - split; [now left|]. intros [H| ->]; assumption.
  - rewrite elem_of_app, list_elem_of_singleton. reflexivity.
Qed.

Lemma set_add_NoDup seen x : NoDup seen -> NoDup (set_add seen x).
Proof.
  intros Hnd. unfold set_add. case_decide as Hx; [exact Hnd|].
  apply NoDup_app. split; [exact Hnd|]. split; [|apply NoDup_singleton].
  intros y Hy Hyx. apply list_elem_of_singleton in Hyx. congruence.
Qed.

Lemma fold_set_add_spec arr : forall seen,
  NoDup seen ->
  NoDup (fold_left set_add arr seen)
  /\ forall y, y ∈ fold_left set_add arr seen <-> y ∈ seen \/ y ∈ arr.
Proof.
  induction arr as [|x arr IH]; intros seen Hnd; cbn [fold_left].
  - split; [exact Hnd|]. intros y. split; [now left|].
    intros [H|H]; [exact H|inversion H].
  - destruct (IH (set_add seen x) (set_add_NoDup seen x Hnd)) as [Hnd' Hel].
    split; [exact Hnd'|]. intros y. rewrite Hel, set_add_elem, elem_of_cons. tauto.
Qed.

Lemma Boolean_str_true u : Boolean_str u = true <-> u <> [].
Proof. destruct u; simpl; split; congruence. Qed.

Lemma urlsRawOf_elem content u :
  u ∈ urlsRawOf content
  <-> u <> [] /\ exists line, line ∈ splitLines content /\ u = trim line.
Proof.
  unfold urlsRawOf. rewrite list_elem_of_In, List.filter_In, in_map_iff, Boolean_str_true.
  split.
  - intros [(line & <- & Hin) Hne]. split; [exact Hne|].
    exists line. split; [now apply list_elem_of_In|reflexivity].
  - intros [Hne (line & Hin & ->)]. split; [|exact Hne].
    exists line. split; [reflexivity|now apply list_elem_of_In].
Qed.

(** X22.  The urls that [main] works on are distinct, none is empty or
    begins or ends with white space, and they are exactly the trimmed
    non-blank lines of the file. *)
Theorem urlsOf_distinct_trimmed_lines (content : jsstring) :
  NoDup (urlsOf content)
  /\ (forall u, u ∈ urlsOf content
                <-> u <> [] /\ exists line, line ∈ splitLines content /\ u = trim line)
  /\ Forall (fun u => trim u = u) (urlsOf content).
Proof.
  unfold urlsOf, spreadSet.
  destruct (fold_set_add_spec (urlsRawOf content) [] (NoDup_nil_2)) as [Hnd Hel].
  assert (Hiff : forall u, u ∈ fold_left set_add (urlsRawOf content) []
                           <-> u ∈ urlsRawOf content).
  { intros u. rewrite Hel. split; [intros [H|H]; [inversion H|exact H]|now right]. }
  split; [exact Hnd|]. split.
  - intros u. now rewrite Hiff, urlsRawOf_elem.
  - apply Forall_forall. intros u Hu. apply Hiff, urlsRawOf_elem in Hu.
    destruct Hu as [_ (line & _ & ->)]. apply trim_idempotent.
Qed.

End UrlListFacts.

Section ScrapeFacts.
Import Js Ingest IngestIO.
Variable scrapeOnce : string -> result Document.

Lemma includes_replaceTrailingSlash url :
  includes (replaceTrailingSlash url "/amp") "/amp" = true.
Proof.
  induction url as [|c rest IH]; [reflexivity|].
  cbn [replaceTrailingSlash]. destruct rest as [|c' rest'].
  - destruct (Ascii.eqb c _); [reflexivity|].
    cbn [includes]. apply orb_true_iff. right. reflexivity.
  - cbn [includes]. apply orb_true_iff. right. exact IH.
Qed.

(** A url without [/amp] in it gets another url as its AMP version. *)
Lemma ampUrlOf_differs url : includes url "/amp" = false -> ampUrlOf url <> url.
Proof.
  intros Hno Heq. unfold ampUrlOf in Heq. rewrite Hno in Heq.
  pose proof (includes_replaceTrailingSlash url) as H. rewrite Heq in H. congruence.
Qed.

(** X23.  [scrape] fails exactly when the first fetch fails.  Otherwise it
    returns a document whose text is at least as long as the first one's:
    the first document, or the AMP version when that is strictly longer;
    a failure of the AMP fetch is swallowed.  The AMP url is requested only
    when the first text is shorter than 500 and the url has no [/amp] in
    it, so [scrape] makes at most two requests. *)
Theorem scrape_amp_fallback (url : string) (requested : list string) :
  let r := fst (scrape scrapeOnce url requested) in
  let requested' := snd (scrape scrapeOnce url requested) in
  match scrapeOnce url with
  | Throw e => r = Throw e /\ requested' = requested ++ [url]
  | Ok doc =>
      (exists doc',
          r = Ok doc'
          /\ (length (doc_text doc) <= length (doc_text doc'))%nat
          /\ (doc' = doc
              \/ (scrapeOnce (ampUrlOf url) = Ok doc'
                  /\ (length (doc_text doc) < length (doc_text doc'))%nat)))
      /\ requested'
         = requested ++ (if (500 <=? length (doc_text doc))%nat || includes url "/amp"
                         then [url] else [url; ampUrlOf url])
  end.
Proof.
  cbv zeta. unfold scrape, fetch, bind, modify, lift, try_catch, ret.
  destruct (scrapeOnce url) as [doc|e]; cbn [fst snd]; [|split; reflexivity].
  destruct (500 <=? length (doc_text doc))%nat; cbn [orb fst snd].
  { split; [exists doc; split; [reflexivity|]; split; [lia|now left]|reflexivity]. }
  destruct (includes url "/amp") eqn:Hamp.
  - assert (Hsame : ampUrlOf url = url) by (unfold ampUrlOf; now rewrite Hamp).
    rewrite bool_decide_eq_false_2 by (intros H; now apply H).
    cbn [fst snd].
    split; [exists doc; split; [reflexivity|]; split; [lia|now left]|reflexivity].
  - rewrite bool_decide_eq_true_2 by (now apply ampUrlOf_differs).
    destruct (scrapeOnce (ampUrlOf url)) as [ampDoc|e] eqn:Hfetch; cbn [fst snd].
    + destruct (Nat.ltb_spec (length (doc_text doc)) (length (doc_text ampDoc)));
        cbn [fst snd]; rewrite <- app_assoc.
      * split; [exists ampDoc; split; [reflexivity|]; split; [lia|right; now split]|reflexivity].
      * split; [exists doc; split; [reflexivity|]; split; [lia|now left]|reflexivity].
    + rewrite <- app_assoc.
      split; [exists doc; split; [reflexivity|]; split; [lia|now left]|reflexivity].
Qed.

End ScrapeFacts.

(* ===================================================================== *)
(** * More about the ingestion loop                                      *)
(* ===================================================================== *)

Section IngestMore.
Import Js Chunker Ingest.

Variable vector : Type.
Variable scrape : nat -> string -> result Document.
Variable embedMany : nat -> list jsstring -> result (list vector).
Variable upsertPoints : nat -> list (Point vector) -> result unit.
Variable uuid : nat -> string.

Local Abbreviation state := (state vector).
Local Abbreviation ingest_try := (ingest_try vector scrape embedMany upsertPoints uuid).
Local Abbreviation ingest_url := (ingest_url vector scrape embedMany upsertPoints uuid).
Local Abbreviation ingest_loop := (ingest_loop vector scrape embedMany upsertPoints uuid).
Local Abbreviation main_loop := (main_loop vector scrape embedMany upsertPoints uuid).

(** Code that neither stores points, nor writes to the backup file, nor
    counts a URL. *)
Local Abbreviation keeps := (fun (A : Type) (m : Eff state A) =>
  forall s : state,
    db (snd (m s)) = db s /\ out (snd (m s)) = out s
    /\ processed (snd (m s)) = processed s).

(** The payload that [main] gives the point of a chunk. *)
Local Abbreviation payloadOf := (fun (doc : Document) (chunk : jsstring) =>
  {| p_url := doc_url doc; p_title := doc_title doc; p_text := chunk |}).

Lemma keeps_bind {A B} (m : Eff state A) (k : A -> Eff state B) :
  keeps A m -> (forall a, keeps B (k a)) -> keeps B (bind m k).
Proof.
  intros Hm Hk s. unfold bind. specialize (Hm s).
  destruct (m s) as [[a|e] s1]; cbn [snd] in *; [|exact Hm].
  destruct (Hk a s1) as (H1 & H2 & H3). destruct Hm as (H4 & H5 & H6).
  repeat split; congruence.
Qed.

Lemma keeps_try_catch {A} (m : Eff state A) (h : jserror -> Eff state A) :
  keeps A m -> (forall e, keeps A (h e)) -> keeps A (try_catch m h).
Proof.
  intros Hm Hh s. unfold try_catch. specialize (Hm s).
  destruct (m s) as [[a|e] s1]; cbn [snd] in *; [exact Hm|].
  destruct (Hh e s1) as (H1 & H2 & H3). destruct Hm as (H4 & H5 & H6).
  repeat split; congruence.
Qed.

Lemma keeps_log ev : keeps unit (log vector ev).
Proof. intros s. repeat split. Qed.

Lemma keeps_tick : keeps nat (tick vector).
Proof. intros s. repeat split. Qed.

Lemma keeps_pure {A} (r : result A) : keeps A (lift r).
Proof. intros s. repeat split. Qed.

Lemma embedGroups_keeps groups : forall vectors,
  keeps (list vector) (embedGroups vector embedMany groups vectors).
Proof.
  induction groups as [|group rest IH]; intros vectors; cbn [embedGroups].
  - intros s. repeat split.
  - apply keeps_bind; [apply keeps_log|]. intros _.
    apply keeps_bind; [apply keeps_tick|]. intros n.
    apply keeps_bind; [|intros v; apply IH].
    apply keeps_try_catch; [apply keeps_pure|]. intros e.
    apply keeps_bind; [apply keeps_log|]. intros _ s. repeat split.
Qed.

Lemma makePoints_keeps doc chunks : forall idx vectors,
  keeps (list (Point vector)) (makePoints vector uuid doc chunks idx vectors).
Proof.
  induction chunks as [|chunk rest IH]; intros idx vectors; cbn [makePoints].
  - intros s. repeat split.
  - apply keeps_bind; [apply keeps_tick|]. intros n.
    apply keeps_bind; [apply IH|]. intros pts s. repeat split.
Qed.

(** [makePoints] gives one point per chunk, in order, with the document's
    url and title. *)
Lemma makePoints_payloads doc chunks : forall idx vectors (s : state),
  exists pts,
    fst (makePoints vector uuid doc chunks idx vectors s) = Ok pts
    /\ map (pt_payload vector) pts = map (payloadOf doc) chunks.
Proof.
  induction chunks as [|chunk rest IH]; intros idx vectors s; cbn [makePoints].
  - exists []. split; reflexivity.
  - unfold bind, tick, ret. cbn [fst snd calls].
    match goal with |- context [makePoints _ _ _ _ ?i ?v ?s'] =>
      destruct (IH i v s') as (pts & Hpts & Hpay);
      destruct (makePoints vector uuid doc rest i v s') as [r s1] end.
    cbn [fst] in Hpts. subst r. eexists. split; [reflexivity|].
    cbn [map pt_payload]. now rewrite Hpay.
Qed.

(** What the [try] block of one URL leaves of the store. *)
Lemma ingest_try_store url (s : state) :
  match ingest_try url s with
  | (Ok _, s') =>
      (db s' = db s /\ out s' = out s /\ processed s' = processed s)
      \/ exists doc pts,
           scrape (calls s) url = Ok doc
           /\ (500 <= length (doc_text doc))%nat
           /\ map (pt_payload vector) pts
              = map (payloadOf doc) (chunkText_default (doc_text doc))
           /\ db s' = db s ++ pts
           /\ out s' = out s ++ map (pt_payload vector) pts
           /\ processed s' = S (processed s)
  | (Throw _, s') => db s' = db s /\ out s' = out s /\ processed s' = processed s
  end.
Proof.
  unfold Ingest.ingest_try. unfold bind at 1. cbn [tick].
  unfold bind at 1. unfold lift at 1.
  destruct (scrape (calls s) url) as [doc|e] eqn:Hscrape; [|repeat split].
  unfold bind at 1. cbn [log modify processed db out console calls].
  destruct (Nat.ltb_spec (length (doc_text doc)) 500) as [Hshort|Hlong].
  { cbv beta iota. unfold log, modify. cbn [processed db out]. left. repeat split. }
  remember (chunkText_default (doc_text doc)) as chunks eqn:Hchunks.
  match goal with |- (let (_, _) := _ ?st in _) => set (s1 := st) end.
  unfold bind at 1.
  pose proof (embedGroups_keeps (chunkArray chunks 4) [] s1) as (Hd2 & Ho2 & Hp2).
  destruct (embedGroups _ _ _ _ s1) as [[vectors|e] s2]; cbn [snd] in Hd2, Ho2, Hp2.
  unfold s1 in Hd2, Ho2, Hp2. cbn [processed db out] in Hd2, Ho2, Hp2.
  2:{ repeat split; assumption. }
  unfold bind at 1.
  pose proof (makePoints_keeps doc chunks 0 vectors s2) as (Hd3 & Ho3 & Hp3).
  destruct (makePoints_payloads doc chunks 0 vectors s2) as (pts & Hpts & Hpay).
  destruct (makePoints _ _ _ _ _ _ s2) as [r3 s3]; cbn [fst snd] in Hd3, Ho3, Hp3, Hpts.
  subst r3.
  unfold bind at 1. cbn [tick]. unfold bind at 1. unfold lift at 1.
  destruct (upsertPoints (calls s3) pts) as [u|e].
  2:{ cbn [processed db out]. repeat split; congruence. }
  unfold bind, store_points, write_out, incr_processed, log, modify.
  cbn [processed db out fst snd]. right. exists doc, pts.
  split; [reflexivity|]. split; [exact Hlong|]. split; [now rewrite <- Hchunks|].
  rewrite Hd3, Hd2, Ho3, Ho2, Hp3, Hp2. repeat split.
Qed.

Lemma ingest_url_store total i url (s : state) :
  let s' := ingest_url total i url s in
  (db s' = db s /\ out s' = out s /\ processed s' = processed s)
  \/ exists doc pts,
       scrape (calls s) url = Ok doc
       /\ (500 <= length (doc_text doc))%nat
       /\ map (pt_payload vector) pts
          = map (payloadOf doc) (chunkText_default (doc_text doc))
       /\ db s' = db s ++ pts
       /\ out s' = out s ++ map (pt_payload vector) pts
       /\ processed s' = S (processed s).
Proof.
  intros s'.
  pose (s0 := {| processed := processed s; db := db s; out := out s;
                 console := console s ++ [Fetching (i + 1) total url];
                 calls := calls s |}).
  assert (Hs' : s' = match ingest_try url s0 with
                     | (Ok _, s1) => s1
                     | (Throw e, s1) =>
                         snd (log vector (ErrorForURL url (err_message e)) s1)
                     end) by reflexivity.
  clearbody s'. pose proof (ingest_try_store url s0) as H.
  destruct (ingest_try url s0) as [[u|e] s1]; subst s'.
  - exact H.
  - left. exact H.
Qed.

(** X24.  A URL is ingested all or nothing.  Either the iteration stores no
    point, writes no backup line and counts nothing (the URL was skipped, or
    something failed, in the fetch, an embedding call or the upsert); or the
    text has at least 500 characters and the iteration stores one point per
    chunk of it, in order, each with the document's url and title, writes
    exactly their payloads to the backup file, and counts the URL. *)
Theorem ingest_url_all_or_nothing (total i : nat) (url : string) (s : state) :
  let s' := ingest_url total i url s in
  (db s' = db s /\ out s' = out s /\ processed s' = processed s)
  \/ exists doc pts,
       scrape (calls s) url = Ok doc
       /\ (500 <= length (doc_text doc))%nat
       /\ map (pt_payload vector) pts
          = map (fun chunk => {| p_url := doc_url doc; p_title := doc_title doc;
                                 p_text := chunk |})
                (chunkText_default (doc_text doc))
       /\ db s' = db s ++ pts
       /\ out s' = out s ++ map (pt_payload vector) pts
       /\ processed s' = S (processed s).
Proof. exact (ingest_url_store total i url s). Qed.

Lemma ingest_loop_backup total urls : forall i (s : state),
  out s = map (pt_payload vector) (db s) ->
  out (ingest_loop total i urls s) = map (pt_payload vector) (db (ingest_loop total i urls s)).
Proof.
  induction urls as [|url rest IH]; intros i s Hs; cbn [Ingest.ingest_loop]; [exact Hs|].
  apply IH.
  destruct (ingest_url_store total i url s) as [(Hd & Ho & _)|(doc & pts & _ & _ & _ & Hd & Ho & _)];
    cbv zeta in *; rewrite Ho, Hd, ?map_app; congruence.
Qed.

(** X25.  The backup file mirrors the vector store: if the lines written so
    far are the payloads of the points stored so far, they still are after
    the loop, whatever failed on the way; from the initial state the file
    holds exactly one line per stored point, in order. *)
Theorem backup_mirrors_store (urls : list string) (s : state) :
  out s = map (pt_payload vector) (db s) ->
  out (main_loop urls s) = map (pt_payload vector) (db (main_loop urls s))
  /\ length (out (main_loop urls s)) = length (db (main_loop urls s)).
Proof.
  intros Hs. unfold Ingest.main_loop. cbn [log modify snd out db].
  pose proof (ingest_loop_backup (length urls) urls 0%nat s Hs) as H.
  split; [exact H|]. rewrite H. apply length_map.
Qed.

End IngestMore.

Section IngestMoreWitness.
Import Js Ingest Scenario.

Lemma backup_mirrors_store_witness :
  out run_batch = map (pt_payload unit) (db run_batch)
  /\ length (out run_batch) = 30%nat.
Proof.
  destruct (backup_mirrors_store unit scrape_demo embed_demo upsert_demo uuid_demo
              batch (initial unit) eq_refl) as [H _].
  split; [exact H|]. vm_compute. reflexivity.
Defined.

End IngestMoreWitness.

(* ===================================================================== *)
(** * Where a window ends, and the lines of the url file                 *)
(* ===================================================================== *)

Section WindowFacts.
Import Js Chunker.

Lemma lastIndexOf_scan_found ch s : forall idx from acc,
  0 <= idx ->
  let r := lastIndexOf_scan ch s idx from acc in
  r = acc \/ (idx <= r <= from /\ s !! Z.to_nat (r - idx) = Some ch).
Proof.
  induction s as [|c s IH]; intros idx from acc Hidx; cbn [lastIndexOf_scan];
    [now left|].
  destruct (Z.leb_spec idx from) as [Hle|Hgt]; [|now left].
  destruct (IH (idx + 1) from (if (c =? ch)%N then idx else acc) ltac:(lia))
    as [Hr|[Hr Hl]]; cbv zeta in *.
  - rewrite Hr. destruct (N.eqb_spec c ch) as [->|Hne]; [|now left].
    right. split; [lia|]. now rewrite Z.sub_diag.
  - right. split; [lia|].
    replace (Z.to_nat (_ - idx)) with (S (Z.to_nat (lastIndexOf_scan ch s (idx + 1) from
                (if (c =? ch)%N then idx else acc) - (idx + 1)))) by lia.
    exact Hl.
Qed.

(** [lastIndexOf] answers [-1], or an index not after [from] that holds the
    character searched. *)
Lemma lastIndexOf_found s ch from :
  0 <= from ->
  lastIndexOf s ch from = -1
  \/ (0 <= lastIndexOf s ch from <= from
      /\ s !! Z.to_nat (lastIndexOf s ch from) = Some ch).
Proof.
  intros Hfrom. unfold lastIndexOf. replace (Z.max from 0) with from by lia.
  destruct (lastIndexOf_scan_found ch s 0 from (-1) ltac:(lia)) as [H|[H1 H2]];
    cbv zeta in *; [now left|right].
  split; [exact H1|]. now rewrite Z.sub_0_r in H2.
Qed.



End WindowFacts.

Section SplitLinesFacts.
Import Js IngestIO.

Lemma splitLines_not_nil s : splitLines s <> [].
Proof.
  destruct s as [|c s]; cbn [splitLines]; [discriminate|].
  destruct (c =? 10)%N; [discriminate|].
  destruct s as [|c' s'']; [discriminate|].
  destruct ((c =? 13) && (c' =? 10))%N; [discriminate|].
  unfold cons_line. destruct (splitLines (c' :: s'')); discriminate.
Qed.

Lemma cons_line_no_feed c lines :
  c <> 10%N -> Forall (fun l => 10%N ∉ l) lines ->
  Forall (fun l => 10%N ∉ l) (cons_line c lines).
Proof.
  intros Hc Hl. unfold cons_line. destruct Hl as [|l rest Hl Hrest].
  - constructor; [|constructor]. apply not_elem_of_cons. split; [congruence|apply not_elem_of_nil].
  - constructor; [|exact Hrest]. apply not_elem_of_cons. split; [congruence|exact Hl].
Qed.

Lemma splitLines_no_feed_bounded n : forall s,
  (length s <= n)%nat -> Forall (fun l => 10%N ∉ l) (splitLines s).
Proof.
  induction n as [|n IH]; intros s Hlen.
  - destruct s; [|simpl in Hlen; lia]. constructor; [apply not_elem_of_nil|constructor].
  - destruct s as [|c s]; [constructor; [apply not_elem_of_nil|constructor]|].
    cbn [splitLines]. simpl in Hlen.
    destruct (N.eqb_spec c 10) as [->|Hc].
    { constructor; [apply not_elem_of_nil|]. apply IH. lia. }
    destruct s as [|c' s''].
    { constructor; [|constructor]. apply not_elem_of_cons.
      split; [congruence|apply not_elem_of_nil]. }
    destruct ((c =? 13) && (c' =? 10))%N.
    { constructor; [apply not_elem_of_nil|]. apply IH. simpl in Hlen. lia. }
    apply cons_line_no_feed; [exact Hc|]. apply IH. lia.
Qed.

Lemma splitLines_join_bounded n : forall s,
  (length s <= n)%nat -> 13%N ∉ s ->
  concat (map (fun l => l ++ [10%N]) (splitLines s)) = s ++ [10%N].
Proof.
  induction n as [|n IH]; intros s Hlen Hcr.
  - destruct s; [reflexivity|simpl in Hlen; lia].
  - destruct s as [|c s]; [reflexivity|].
    apply not_elem_of_cons in Hcr as [Hc Hcr]. simpl in Hlen.
    cbn [splitLines].
    destruct (N.eqb_spec c 10) as [->|Hfeed].
    { cbn [map concat app]. now rewrite IH by (lia || assumption). }
    destruct s as [|c' s'']; [reflexivity|].
    destruct (N.eqb_spec c 13) as [->|_]; [congruence|]. cbn [andb].
    pose proof (IH (c' :: s'') ltac:(lia) Hcr) as Hrest.
    pose proof (splitLines_not_nil (c' :: s'')) as Hne.
    unfold cons_line. destruct (splitLines (c' :: s'')) as [|l rest]; [congruence|].
    cbn [map concat] in *. rewrite <- !app_comm_cons. now rewrite Hrest.
Qed.

(** X27.  No line that [split(/\r?\n/)] gives contains a line feed; and for
    a content without carriage returns, the lines, each followed by a line
    feed, put together give back the content followed by a line feed. *)
Theorem splitLines_lines (content : jsstring) :
  Forall (fun l => 10%N ∉ l) (splitLines content)
  /\ (13%N ∉ content ->
      concat (map (fun l => l ++ [10%N]) (splitLines content)) = content ++ [10%N]).
Proof.
  split.
  - exact (splitLines_no_feed_bounded (length content) content (le_n _)).
  - exact (splitLines_join_bounded (length content) content (le_n _)).
Qed.

Lemma splitLines_lines_witness :
  concat (map (fun l => l ++ [10%N]) (splitLines [104; 10; 105]%N)) = [104; 10; 105; 10]%N.
Proof.
  refine (proj2 (splitLines_lines [104; 10; 105]%N) _).
  intros H. repeat (apply elem_of_cons in H as [H|H]; [discriminate|]). inversion H.
Defined.

End SplitLinesFacts.
